(** * The YouTube extractor of lux (extractors/youtube/youtube.go)

    A shallow embedding of the extractor: the derivation of a file
    extension from a mime type ([getStreamExt]), the construction of the
    stream catalogue of one video ([youtubeDownload], [genPartByFormat],
    [getVideoAudio]) and the entry point [Extract] with its playlist
    fan-out over a bounded pool of goroutines.

    Conventions.
    - Go strings are byte strings: [string].  Go [int]/[int64] values
      are [Z]; the code does no arithmetic on them besides counting
      positions of a slice, so no wrap-around can occur.
    - A Go map is a [gmap]; a Go slice is a [list], a nil-able pointer
      an [option].
    - A Go pair [(T, error)] is a [result T].
    - The remote client (package kkdai/youtube), the size probe
      (package request) and the item selection (package utils) are
      collaborators of the extractor; they are fields of [Env].  Their
      answers are functions of their arguments. *)

From Stdlib Require Import Ascii.
From stdpp Require Import gmap strings list fin_maps pretty.

(** ** Byte strings *)

Module Str.

(** [strings.HasPrefix(s, p)] and [strings.Contains(s, sub)] of the Go
    standard library. *)
Fixpoint hasPrefix (p s : string) : bool :=
  match p, s with
  | EmptyString, _ => true
  | String a p', String b s' => bool_decide (a = b) && hasPrefix p' s'
  | String _ _, EmptyString => false
  end.

Fixpoint Contains (s sub : string) : bool :=
  hasPrefix sub s ||
  match s with
  | EmptyString => false
  | String _ s' => Contains s' sub
  end.

(** The character class [\w] of Go's regexp: [0-9A-Za-z_]. *)
Definition is_word (c : ascii) : bool :=
  let n := nat_of_ascii c in
  ((48 <=? n) && (n <=? 57)) || ((65 <=? n) && (n <=? 90))
  || (n =? 95) || ((97 <=? n) && (n <=? 122)).

Fixpoint all_word (s : string) : bool :=
  match s with
  | EmptyString => true
  | String c s' => is_word c && all_word s'
  end.

(** Longest prefix made of word characters, and the rest. *)
Fixpoint span_word (s : string) : string * string :=
  match s with
  | EmptyString => (EmptyString, EmptyString)
  | String c s' =>
      if is_word c
      then let '(w, r) := span_word s' in (String c w, r)
      else (EmptyString, s)
  end.

Fixpoint has_char (c : ascii) (s : string) : bool :=
  match s with
  | EmptyString => false
  | String d s' => bool_decide (c = d) || has_char c s'
  end.

End Str.

(** ** The pattern [(\w+)/(\w+);] *)

Module Pattern.
Import Str.

(** What it means for the pattern [(\w+)/(\w+);] to match inside [s]:
    [s] is [pre ++ ty ++ "/" ++ sub ++ ";" ++ post] where [ty] and [sub]
    are non-empty runs of word characters. *)
Definition occurs (s pre ty sub post : string) : Prop :=
  s = pre +:+ ty +:+ "/" +:+ sub +:+ ";" +:+ post
  ∧ ty ≠ "" ∧ sub ≠ "" ∧ all_word ty = true ∧ all_word sub = true.

(** A run of word characters ends at [r]. *)
Definition stops (r : string) : Prop :=
  match r with
  | EmptyString => True
  | String c _ => is_word c = false
  end.

(** The leftmost occurrence: no occurrence starts earlier. *)
Definition leftmost (s pre : string) : Prop :=
  ∀ pre' ty' sub' post',
    occurs s pre' ty' sub' post' → String.length pre ≤ String.length pre'.

(** Modelled from the spec: the match of [(\w+)/(\w+);] anchored at the
    start of [s], as [regexp.FindStringSubmatch] reports it: the whole
    match, then the two groups.  Neither [\w+] can stop early: the byte
    that has to follow it ([/], then [;]) is not a word character, so
    each group is the longest run. *)
Definition match_here (s : string) : option (list string) :=
  let '(ty, r1) := span_word s in
  match r1 with
  | String c1 r2 =>
      let '(sub, r3) := span_word r2 in
      match r3 with
      | String c2 _ =>
          if bool_decide (ty ≠ "" ∧ c1 = "/"%char ∧ sub ≠ "" ∧ c2 = ";"%char)
          then Some [ty +:+ "/" +:+ sub +:+ ";"; ty; sub]
          else None
      | EmptyString => None
      end
  | EmptyString => None
  end.

(** Modelled from the spec: [utils.MatchOneOf(text, `(\w+)/(\w+);`)]
    of package utils, which lies outside this file's source.  The
    spec has the extension derived "by matching the pattern
    <type>/<subtype>; and extracting <subtype>"; the result is the
    submatch list of the leftmost match, [None] (Go's nil) when the
    pattern matches nowhere. *)
Fixpoint MatchOneOf (text : string) : option (list string) :=
  match match_here text with
  | Some m => Some m
  | None =>
      match text with
      | EmptyString => None
      | String _ text' => MatchOneOf text'
      end
  end.

End Pattern.

(** [getStreamExt], youtube.go lines 234-241. *)
Definition getStreamExt (streamType : string) : string :=
  match Pattern.MatchOneOf streamType with
  | None => ""
  | Some exts =>
      if bool_decide (length exts < 3) then ""
      else default "" (exts !! 2)
  end.

(** The mime type of the comment in [getStreamExt]:
    video/webm; codecs=(quote)vp8.0, vorbis(quote). *)
Definition webm_mime : string :=
  "video/webm; codecs=" +:+ String "034" ("vp8.0, vorbis" +:+ String "034" "").

(** ** Data of the collaborating packages *)

(** [youtube.Format] of kkdai/youtube, the fields the extractor reads. *)
Record Format := {
  ItagNo : Z;
  MimeType : string;
  QualityLabel : string;
  AudioChannels : Z;
  ContentLength : Z;
}.

(** [youtube.Video], [youtube.PlaylistEntry] and [youtube.Playlist]. *)
Record Video := {
  VideoID : string;
  Title : string;
  Formats : list Format;
}.

Record PlaylistEntry := {
  EntryID : string;
  EntryTitle : string;
}.

Record Playlist := {
  PlaylistID : string;
  Videos : list PlaylistEntry;
}.

(** Go [error] values: what a collaborator reports, [errors.New] and
    [errors.WithStack]. *)
Inductive error :=
| Upstream (msg : string)
| New (msg : string)
| WithStack (e : error).

Inductive result (A : Type) :=
| Ok (a : A)
| Err (e : error).
Arguments Ok {A} a.
Arguments Err {A} e.

(** Modelled from the spec: the types [Part], [Stream] and [Data] of
    package extractors are declared outside youtube.go.  The
    spec's Part has a source URL, a size and a file extension; its Stream
    an id, a quality description, a file extension, the muxing flag and
    the ordered parts; its ExtractionResult a source URL, a title, a
    kind, the streams keyed by id and, on failure, the cause. *)
Record Part := {
  URL : string;
  Size : Z;
  PartExt : string;
}.

Record Stream := {
  ID : string;
  Parts : list Part;
  Quality : string;
  Ext : string;
  NeedMux : bool;
}.

Record Data := {
  DataURL : string;
  Site : string;
  DataTitle : string;
  Type_ : string;
  Streams : gmap string Stream;
  DataErr : option error;
}.

#[global] Instance Format_eq_dec : EqDecision Format.
Proof. solve_decision. Defined.
#[global] Instance error_eq_dec : EqDecision error.
Proof. solve_decision. Defined.
#[global] Instance Part_eq_dec : EqDecision Part.
Proof. solve_decision. Defined.

(** Modelled from the spec: [extractors.EmptyData(url, err)], declared
    outside youtube.go: "an error marker carrying the source URL
    and the failure cause, structurally the same shape as a success
    result"; it has no streams. *)
Definition EmptyData (url : string) (err : error) : Data :=
  {| DataURL := url; Site := ""; DataTitle := ""; Type_ := "";
     Streams := ∅; DataErr := Some err |}.

(** [extractors.Options], the fields [Extract] reads. *)
Record Options := {
  OptPlaylist : bool;
  Items : string;
  ItemStart : Z;
  ItemEnd : Z;
  ThreadNumber : Z;
}.

(** The collaborators.
    - [GetVideo], [GetPlaylist], [VideoFromPlaylistEntry], [GetStreamURL]:
      methods of [youtube.Client].
    - [FormatList_Sort]: [FormatList.Sort] of kkdai/youtube, the
      library's ranking of formats.
    - [request_Size]: [request.Size(url, refer)], a pair of a size and an
      error of which the extractor keeps the size.
    - [NeedDownloadList]: [utils.NeedDownloadList(items, start, end, len)],
      the 1-based positions to extract. *)
Record Env := {
  GetVideo : string → result Video;
  GetPlaylist : string → result Playlist;
  VideoFromPlaylistEntry : PlaylistEntry → result Video;
  GetStreamURL : Video → Format → result string;
  FormatList_Sort : list Format → list Format;
  request_Size : string → string → Z * option error;
  NeedDownloadList : string → Z → Z → Z → list Z;
  (** sorting rearranges the list *)
  FormatList_Sort_perm : ∀ l, FormatList_Sort l ≡ₚ l;
}.

(** [FormatList.Type(value)] of kkdai/youtube: the formats whose mime
    type contains [value], in a fresh list. *)
Definition FormatList_Type (value : string) (l : list Format) : list Format :=
  filter (λ f, Str.Contains (MimeType f) value = true) l.

Definition referer : string := "https://www.youtube.com".

(** [strconv.Itoa]. *)
Definition Itoa (n : Z) : string := pretty n.

(** ** Calls made while one video is resolved

    The trace of the places where [youtubeDownload] asks for a part or
    for an audio format: line 163 (the part of the format at hand),
    line 184 (the audio format for an extension) and line 188 (the part
    of that audio format). *)
Inductive Call :=
| CallGenPart (f : Format)
| CallGetVideoAudio (ext : string)
| CallGenAudioPart (ext : string) (audio : Format).

#[global] Instance Call_eq_dec : EqDecision Call.
Proof. solve_decision. Defined.

(** Computations that extend the trace and may fail. *)
Definition M (A : Type) : Type := list Call → list Call * result A.

#[global] Instance M_ret : MRet M := λ A a log, (log, Ok a).

#[global] Instance M_bind : MBind M := λ A B k m log,
  match m log with
  | (log', Ok a) => k a log'
  | (log', Err e) => (log', Err e)
  end.

Definition call {A} (c : Call) (r : result A) : M A :=
  λ log, (log ++ [c], r).

Section Extractor.

Variable env : Env.

(** [genPartByFormat], youtube.go lines 208-223. *)
Definition genPartByFormat (video : Video) (f : Format) : result Part :=
  let ext := getStreamExt (MimeType f) in
  match GetStreamURL env video f with
  | Err err => Err (WithStack err)
  | Ok url =>
      let size := ContentLength f in
      let size := if bool_decide (size = 0%Z)
                  then fst (request_Size env url referer) else size in
      Ok {| URL := url; Size := size; PartExt := ext |}
  end.

(** [v.Formats.Type(mimeType).Type("audio")], line 226. *)
Definition audioFormats (v : Video) (mimeType : string) : list Format :=
  FormatList_Type "audio" (FormatList_Type mimeType (Formats v)).

(** [getVideoAudio], youtube.go lines 225-232. *)
Definition getVideoAudio (v : Video) (mimeType : string) : result Format :=
  let audioFormats := audioFormats v mimeType in
  match audioFormats with
  | [] => Err (New "no audio format found after filtering")
  | a0 :: _ =>
      (* audioFormats.Sort(); &audioFormats[0].  Sorting keeps the
         length, so the default of [hd] is never used. *)
      Ok (hd a0 (FormatList_Sort env audioFormats))
  end.

(** The state of the loop of [youtubeDownload]: [streams] and
    [audioCache]. *)
Definition LoopState : Type := gmap string Stream * gmap string Part.

Definition appendPart (s : Stream) (p : Part) : Stream :=
  {| ID := ID s; Parts := Parts s ++ [p]; Quality := Quality s;
     Ext := Ext s; NeedMux := NeedMux s |}.

(** One iteration of the loop, youtube.go lines 156-196. *)
Definition loopBody (video : Video) (f : Format) (st : LoopState) : M LoopState :=
  let '(streams, audioCache) := st in
  let itag := Itoa (ItagNo f) in
  let quality :=
    if bool_decide (QualityLabel f ≠ "")
    then QualityLabel f +:+ " " +:+ MimeType f
    else MimeType f in
  part ← call (CallGenPart f) (genPartByFormat video f) ;
  let stream :=
    {| ID := itag; Parts := [part]; Quality := quality;
       Ext := PartExt part; NeedMux := true |} in
  if bool_decide (AudioChannels f = 0%Z) then
    match audioCache !! PartExt part with
    | Some audioPart =>
        mret (<[itag := appendPart stream audioPart]> streams, audioCache)
    | None =>
        audio ← call (CallGetVideoAudio (PartExt part))
                     (getVideoAudio video (PartExt part)) ;
        audioPart ← call (CallGenAudioPart (PartExt part) audio)
                         (genPartByFormat video audio) ;
        mret (<[itag := appendPart stream audioPart]> streams,
             <[PartExt part := audioPart]> audioCache)
    end
  else
    mret (<[itag := stream]> streams, audioCache).

(** The loop over [video.Formats], youtube.go lines 155-197. *)
Fixpoint forFormats (video : Video) (fs : list Format) (st : LoopState) : M LoopState :=
  match fs with
  | [] => mret st
  | f :: fs' => st' ← loopBody video f st ; forFormats video fs' st'
  end.

(** [youtubeDownload], youtube.go lines 151-206, with the trace of its
    calls. *)
Definition youtubeDownload_traced (url : string) (video : Video) : list Call * Data :=
  match forFormats video (Formats video) (∅, ∅) [] with
  | (log, Err err) => (log, EmptyData url err)
  | (log, Ok (streams, _)) =>
      (log, {| DataURL := url; Site := "YouTube youtube.com";
               DataTitle := Title video; Type_ := "video";
               Streams := streams; DataErr := None |})
  end.

Definition youtubeDownload (url : string) (video : Video) : Data :=
  snd (youtubeDownload_traced url video).

Definition youtubeDownload_calls (url : string) (video : Video) : list Call :=
  fst (youtubeDownload_traced url video).

(** *** The playlist path of [Extract] *)

(** A goroutine of lines 136-143 with its arguments: the slot [index]
    of [extractedData] it may write, and its playlist entry. *)
Record Task := {
  slot : nat;
  entry : PlaylistEntry;
}.

(** The goroutines the loop of lines 130-145 starts, in the order it
    starts them.  [index] is the position in [playlist.Videos],
    [dataIndex] the counter of line 129. *)
Fixpoint spawnList (needDownloadItems : list Z) (index dataIndex : nat)
    (videos : list PlaylistEntry) : list Task :=
  match videos with
  | [] => []
  | videoEntry :: rest =>
      if bool_decide ((Z.of_nat index + 1)%Z ∈ needDownloadItems) then
        {| slot := dataIndex; entry := videoEntry |}
          :: spawnList needDownloadItems (S index) (S dataIndex) rest
      else spawnList needDownloadItems (S index) dataIndex rest
  end.

(** The body of a goroutine, lines 137-142, on the shared slice: an
    entry that does not resolve leaves the slice as it is; the write of
    line 142 panics out of range ([None]). *)
Definition taskBody (url : string) (t : Task)
    (extractedData : list (option Data)) : option (list (option Data)) :=
  match VideoFromPlaylistEntry env (entry t) with
  | Err _ => Some extractedData
  | Ok video =>
      if bool_decide (slot t < length extractedData)
      then Some (<[slot t := Some (youtubeDownload url video)]> extractedData)
      else None
  end.

(** The state of a playlist extraction: the goroutines the loop has
    not started yet, those in flight, the shared slice, and whether a
    goroutine has panicked. *)
Record PoolState := {
  pending : list Task;
  inflight : list Task;
  extractedData : list (option Data);
  panicked : bool;
}.

(** What the scheduler decides: the loop starts its next goroutine, or
    the [k]-th goroutine in flight runs to its end. *)
Inductive Action :=
| Spawn
| Finish (k : nat).

(** Modelled from the spec: [utils.NewWaitGroupPool(size)] with its
    [Add], [Done] and [Wait], of package utils, outside youtube.go: "Dispatch blocks when concurrencyLimit tasks are already in
    flight"; [Wait] returns when no goroutine is left. *)
Definition poolHasRoom (size : Z) (st : PoolState) : bool :=
  bool_decide (Z.of_nat (length (inflight st)) < size)%Z.

Definition poolIdle (st : PoolState) : bool :=
  bool_decide (pending st = [] ∧ inflight st = []).

(** One scheduling step; [None] when the action is not enabled. *)
Definition poolStep (url : string) (size : Z) (a : Action) (st : PoolState)
    : option PoolState :=
  if panicked st then None else
  match a with
  | Spawn =>
      match pending st with
      | t :: rest =>
          if poolHasRoom size st then
            Some {| pending := rest; inflight := inflight st ++ [t];
                    extractedData := extractedData st; panicked := false |}
          else None
      | [] => None
      end
  | Finish k =>
      match inflight st !! k with
      | Some t =>
          match taskBody url t (extractedData st) with
          | Some data =>
              Some {| pending := pending st; inflight := delete k (inflight st);
                      extractedData := data; panicked := false |}
          | None =>
              Some {| pending := pending st; inflight := delete k (inflight st);
                      extractedData := extractedData st; panicked := true |}
          end
      | None => None
      end
  end.

Fixpoint poolRun (url : string) (size : Z) (sched : list Action) (st : PoolState)
    : option PoolState :=
  match sched with
  | [] => Some st
  | a :: sched' =>
      match poolStep url size a st with
      | Some st' => poolRun url size sched' st'
      | None => None
      end
  end.

(** What a call of [Extract] does: it returns a slice (nil is [None])
    and an error (nil is [None]), or a goroutine panics. *)
Inductive Outcome :=
| Returns (data : option (list (option Data))) (err : option error)
| Panics.

Definition playlistStart (needDownloadItems : list Z) (playlist : Playlist) : PoolState :=
  {| pending := spawnList needDownloadItems 0 0 (Videos playlist);
     inflight := [];
     extractedData := replicate (length needDownloadItems) None;
     panicked := false |}.

(** [needDownloadItems], line 126. *)
Definition needDownloadItems (opts : Options) (playlist : Playlist) : list Z :=
  NeedDownloadList env (Items opts) (ItemStart opts) (ItemEnd opts)
    (Z.of_nat (length (Videos playlist))).

(** [Extract], youtube.go lines 112-148.  In playlist mode the outcome
    depends on the schedule of the goroutines; [sched] is that
    schedule, and the result is [None] when [sched] is not a complete
    run of the call (it asks for a step that is not enabled, or stops
    before [wgp.Wait()] can return). *)
Definition Extract (sched : list Action) (url : string) (opts : Options)
    : option Outcome :=
  if negb (OptPlaylist opts) then
    match GetVideo env url with
    | Err err => Some (Returns None (Some (WithStack err)))
    | Ok video => Some (Returns (Some [Some (youtubeDownload url video)]) None)
    end
  else
    match GetPlaylist env url with
    | Err err => Some (Returns None (Some (WithStack err)))
    | Ok playlist =>
        let needDownloadItems := needDownloadItems opts playlist in
        match poolRun url (ThreadNumber opts) sched
                (playlistStart needDownloadItems playlist) with
        | Some st =>
            if panicked st then Some Panics
            else if poolIdle st then Some (Returns (Some (extractedData st)) None)
            else None
        | None => None
        end
    end.

(** *** The resolution of one video as the spec describes it

    Section 4.1 of the spec, format by format and without a cache:
    the part of the format, the quality description, for a video-only
    format the part of the best audio format of the same extension,
    and the insertion under the format tag.  These definitions are
    compared with [youtubeDownload] below. *)

Definition spec_audioPart (video : Video) (ext : string) : result Part :=
  match getVideoAudio video ext with
  | Err err => Err err
  | Ok audio => genPartByFormat video audio
  end.

Definition spec_quality (f : Format) : string :=
  if bool_decide (QualityLabel f = "") then MimeType f
  else QualityLabel f +:+ " " +:+ MimeType f.

Definition spec_stream (video : Video) (f : Format) : result Stream :=
  match genPartByFormat video f with
  | Err err => Err err
  | Ok part =>
      if bool_decide (AudioChannels f = 0%Z) then
        match spec_audioPart video (PartExt part) with
        | Err err => Err err
        | Ok audioPart =>
            Ok {| ID := Itoa (ItagNo f); Parts := [part; audioPart];
                  Quality := spec_quality f; Ext := PartExt part;
                  NeedMux := true |}
        end
      else
        Ok {| ID := Itoa (ItagNo f); Parts := [part];
              Quality := spec_quality f; Ext := PartExt part;
              NeedMux := true |}
  end.

Fixpoint spec_catalogue (video : Video) (fs : list Format)
    (streams : gmap string Stream) : result (gmap string Stream) :=
  match fs with
  | [] => Ok streams
  | f :: fs' =>
      match spec_stream video f with
      | Err err => Err err
      | Ok s => spec_catalogue video fs' (<[ID s := s]> streams)
      end
  end.

(** The audio cache holds, under an extension, what resolving the audio
    part of that extension gives. *)
Definition cacheOK (video : Video) (audioCache : gmap string Part) : Prop :=
  ∀ ext p, audioCache !! ext = Some p → spec_audioPart video ext = Ok p.

(** The parts of a stream built from the format [f]: the part of [f],
    followed, when [f] has no audio channel, by the part of the audio
    format that [getVideoAudio] selects for its extension. *)
Definition hasPartsOf (video : Video) (f : Format) (s : Stream) : Prop :=
  ∃ part,
    genPartByFormat video f = Ok part
    ∧ if bool_decide (AudioChannels f = 0%Z) then
        ∃ audio audioPart,
          audio ∈ audioFormats video (PartExt part)
          ∧ getVideoAudio video (PartExt part) = Ok audio
          ∧ genPartByFormat video audio = Ok audioPart
          ∧ Parts s = [part; audioPart]
      else Parts s = [part].

(** *** The playlist result as the spec describes it *)

(** What the goroutine of an entry leaves in its slot. *)
Definition taskResult (url : string) (e : PlaylistEntry) : option Data :=
  match VideoFromPlaylistEntry env e with
  | Err _ => None
  | Ok video => Some (youtubeDownload url video)
  end.

(** The effect of a goroutine that runs to its end on a slice in which
    its slot exists. *)
Definition slotWrite (url : string) (t : Task) (data : list (option Data))
    : list (option Data) :=
  match taskResult url (entry t) with
  | None => data
  | Some d => <[slot t := Some d]> data
  end.

(** The invariant of a playlist extraction over the goroutines [tasks]
    and a slice of [n] slots: nothing has panicked, every goroutine is
    pending, in flight or done, and the slice holds the writes of those
    that are done. *)
Definition poolInv (url : string) (tasks : list Task) (n : nat)
    (st : PoolState) : Prop :=
  panicked st = false
  ∧ ∃ finished,
      finished ++ inflight st ++ pending st ≡ₚ tasks
      ∧ extractedData st = foldr (slotWrite url) (replicate n None) finished.

(** Steps left before [wgp.Wait()] returns. *)
Definition poolMeasure (st : PoolState) : nat :=
  2 * length (pending st) + length (inflight st).

(** The 0-based positions of the playlist that are selected, in
    playlist order. *)
Definition selectedPositions (needDownloadItems : list Z) (n : nat) : list nat :=
  filter (λ i, (Z.of_nat i + 1)%Z ∈ needDownloadItems) (seq 0 n).

End Extractor.

(** ** Counting calls in a trace *)

Definition isLookup (ext : string) (c : Call) : bool :=
  match c with
  | CallGetVideoAudio e => bool_decide (e = ext)
  | _ => false
  end.

Definition isAudioPart (ext : string) (c : Call) : bool :=
  match c with
  | CallGenAudioPart e _ => bool_decide (e = ext)
  | _ => false
  end.

Fixpoint countCalls (p : Call → bool) (log : list Call) : nat :=
  match log with
  | [] => 0
  | c :: log' => (if p c then 1 else 0) + countCalls p log'
  end.

(** The invariant of the loop on its trace: each extension has been
    looked up, and its audio part resolved, at most once, and not at all
    while the cache has no entry for it. *)
Definition onceEnd (log : list Call) : Prop :=
  ∀ ext, countCalls (isLookup ext) log ≤ 1 ∧ countCalls (isAudioPart ext) log ≤ 1.

Definition onceInv (audioCache : gmap string Part) (log : list Call) : Prop :=
  ∀ ext,
    countCalls (isLookup ext) log ≤ 1 ∧ countCalls (isAudioPart ext) log ≤ 1
    ∧ (audioCache !! ext = None →
       countCalls (isLookup ext) log = 0 ∧ countCalls (isAudioPart ext) log = 0).

(** The part [p] is what the call of line 188 for [ext] produced in the
    trace. *)
Definition servedBy (env : Env) (video : Video) (log : list Call)
    (ext : string) (p : Part) : Prop :=
  ∃ audio, CallGenAudioPart ext audio ∈ log ∧ genPartByFormat env video audio = Ok p.

(** Cached audio parts, and the second parts of the streams, come from
    the calls in the trace. *)
Definition servedInv (env : Env) (video : Video) (st : LoopState)
    (log : list Call) : Prop :=
  (∀ ext p, st.2 !! ext = Some p → servedBy env video log ext p)
  ∧ (∀ id s p, st.1 !! id = Some s → Parts s !! 1 = Some p →
               servedBy env video log (Ext s) p).

(** ** A test double of the collaborators *)

Module Fixture.

Definition fmt (itag : Z) (mime label : string) (channels : Z) : Format :=
  {| ItagNo := itag; MimeType := mime; QualityLabel := label;
     AudioChannels := channels; ContentLength := 1000 |}.

Definition muxed18 : Format := fmt 18 "video/mp4; codecs=avc1" "360p" 2.

Definition entryOf (id : string) : PlaylistEntry :=
  {| EntryID := id; EntryTitle := id |}.

(** The playlist "pl": eight entries, the fifth of which does not
    resolve. *)
Definition pl8 : Playlist :=
  {| PlaylistID := "pl";
     Videos := entryOf <$> ["e1"; "e2"; "e3"; "e4"; "gone"; "e6"; "e7"; "e8"] |}.

(** The playlist "allgone": no entry resolves. *)
Definition plGone : Playlist :=
  {| PlaylistID := "allgone"; Videos := entryOf <$> ["gone"; "gone"; "gone"] |}.

(** The client resolves every format but tag 666, every video URL and
    playlist entry but those named "gone"; the selection is the
    explicit list 2,5,7 when items are given, else [start..end]. *)
Definition env : Env :=
  {| GetVideo := λ url,
       if bool_decide (url = "gone") then Err (Upstream "video unavailable")
       else Ok {| VideoID := url; Title := "title"; Formats := [muxed18] |};
     GetPlaylist := λ url,
       if bool_decide (url = "gone") then Err (Upstream "playlist unavailable")
       else if bool_decide (url = "allgone") then Ok plGone
       else Ok pl8;
     VideoFromPlaylistEntry := λ e,
       if bool_decide (EntryID e = "gone") then Err (Upstream "entry unavailable")
       else Ok {| VideoID := EntryID e; Title := EntryTitle e;
                  Formats := [muxed18] |};
     GetStreamURL := λ v f,
       if bool_decide (ItagNo f = 666%Z) then Err (Upstream "cipher")
       else Ok ("https://cdn/" +:+ VideoID v +:+ "/" +:+ Itoa (ItagNo f));
     FormatList_Sort := λ l, l;
     request_Size := λ _ _, (0%Z, Some (Upstream "no Content-Length"));
     NeedDownloadList := λ items start end_ len,
       if bool_decide (items = "") then seqZ start (end_ - start + 1)
       else [2; 5; 7]%Z;
     FormatList_Sort_perm := λ l, reflexivity l |}.

Definition video (fs : list Format) : Video :=
  {| VideoID := "v"; Title := "t"; Formats := fs |}.

(** Three video-only webm formats, one webm and one mp4 audio format
    (the example of section 8 of the spec). *)
Definition vp9_720 : Format := fmt 247 "video/webm; codecs=vp9" "720p" 0.
Definition vp9_1080 : Format := fmt 248 "video/webm; codecs=vp9" "1080p" 0.
Definition vp9_1440 : Format := fmt 271 "video/webm; codecs=vp9" "1440p" 0.
Definition opus : Format := fmt 251 "audio/webm; codecs=opus" "" 2.
Definition mp4a : Format := fmt 140 "audio/mp4; codecs=mp4a" "" 2.

Definition webm3 : list Format := [vp9_720; vp9_1080; vp9_1440; opus; mp4a].

Definition partOf (f : Format) (ext : string) : Part :=
  {| URL := "https://cdn/v/" +:+ Itoa (ItagNo f); Size := 1000; PartExt := ext |}.

Definition stream1080 : Stream :=
  {| ID := "248"; Parts := [partOf vp9_1080 "webm"; partOf opus "webm"];
     Quality := "1080p video/webm; codecs=vp9"; Ext := "webm"; NeedMux := true |}.

Definition stream18 : Stream :=
  {| ID := "18"; Parts := [partOf muxed18 "mp4"];
     Quality := "360p video/mp4; codecs=avc1"; Ext := "mp4"; NeedMux := true |}.

(** A format whose URL does not resolve; a video-only format without any
    audio format; two formats under the tag 18. *)
Definition broken : list Format := [muxed18; fmt 666 "video/mp4; codecs=avc1" "720p" 2].
Definition silent : list Format := [muxed18; vp9_720; mp4a].
Definition dup18 : list Format :=
  [muxed18; fmt 22 "video/mp4; codecs=avc1" "720p" 2;
   fmt 18 "video/webm; codecs=vp8" "480p" 2].

Definition playlistOpts (items : string) (threads : Z) : Options :=
  {| OptPlaylist := true; Items := items; ItemStart := 1; ItemEnd := 8;
     ThreadNumber := threads |}.

Definition singleOpts : Options :=
  {| OptPlaylist := false; Items := ""; ItemStart := 0; ItemEnd := 0;
     ThreadNumber := 1 |}.

(** Items 2, 5 and 7 on a pool of two: 2 and 5 start, 5 ends, 7 starts
    and ends, and 2 ends last. *)
Definition sched257 : list Action :=
  [Spawn; Spawn; Finish 1; Spawn; Finish 1; Finish 0].

(** The same items one after the other. *)
Definition sequential257 : list Action :=
  [Spawn; Finish 0; Spawn; Finish 0; Spawn; Finish 0].

Definition out257 : list (option Data) :=
  [ taskResult env "pl" (entryOf "e2");
    taskResult env "pl" (entryOf "gone");
    taskResult env "pl" (entryOf "e7") ].

End Fixture.

(** ** More of the resolution of one video *)

(** What it takes to build the stream of the format [f] (lines 163-195):
    its URL resolves and, for a video-only format, [getVideoAudio] finds
    an audio format for its extension whose URL resolves too. *)
Definition resolvable (env : Env) (video : Video) (f : Format) : Prop :=
  (∃ u, GetStreamURL env video f = Ok u)
  ∧ (AudioChannels f = 0%Z →
     ∃ audio u,
       getVideoAudio env video (getStreamExt (MimeType f)) = Ok audio
       ∧ GetStreamURL env video audio = Ok u).

(** The formats whose own part the loop asked for (line 163), in the
    order of the trace. *)
Definition primaryCalls (log : list Call) : list Format :=
  omap (λ c, match c with CallGenPart f => Some f | _ => None end) log.

(** ** The start-up of the extractor: [getVisitorId], [New], [RoundTrip] *)

Module Boot.

(** [strings.Cut(s, sep)] of the Go standard library: the text before
    and after the first occurrence of [sep], and whether there is one. *)
Fixpoint stripPrefix (p s : string) : option string :=
  match p, s with
  | EmptyString, _ => Some s
  | String a p', String b s' =>
      if bool_decide (a = b) then stripPrefix p' s' else None
  | String _ _, EmptyString => None
  end.

Fixpoint Cut (s sep : string) : string * string * bool :=
  match stripPrefix sep s with
  | Some after => (EmptyString, after, true)
  | None =>
      match s with
      | EmptyString => (EmptyString, EmptyString, false)
      | String c s' =>
          let '(before, after, found) := Cut s' sep in
          if found then (String c before, after, true)
          else (s, EmptyString, false)
      end
  end.

(** [http.Request] and [http.Response], as far as the extractor goes:
    the header of a request (not nil, as [http.Client] hands requests to
    its transport), and what reading the body of a response to its end
    gives ([io.ReadAll(resp.Body)]). *)
Record Request := {
  Method : string;
  RequestURL : string;
  Header : gmap string (list string);
}.

Record Response := {
  Body : result string;
}.

(** The Go library behind the start-up.
    - [CanonicalMIMEHeaderKey]: the key under which [http.Header.Set]
      stores a header.
    - [NewRequest method url]: [http.NewRequest(method, url, nil)].
    - [DefaultClient_Do]: [http.DefaultClient.Do].
    - [Decode text]: [json.NewDecoder(strings.NewReader(text)).Decode]
      into the struct of lines 68-74, giving the field
      INNERTUBE_CONTEXT.client.visitorData.
    - [PathUnescape]: [url.PathUnescape].
    - [http_Transport]: the [http.Transport] with the proxy of the
      environment that [New] makes the base of its transport. *)
Record Net := {
  CanonicalMIMEHeaderKey : string → string;
  NewRequest : string → string → result Request;
  DefaultClient_Do : Request → result Response;
  Decode : string → result string;
  PathUnescape : string → result string;
  http_Transport : Request → result Response;
}.

(** An error made by [fmt.Errorf]: the text before the verb [%w], and
    the error the verb wraps, if any. *)
Inductive fmtError :=
| Errorf (text : string) (wrapped : option error).

(** [err.Error()]. *)
Fixpoint errorText (e : error) : string :=
  match e with
  | Upstream msg => msg
  | New msg => msg
  | WithStack e' => errorText e'
  end.

Definition fmtErrorText (e : fmtError) : string :=
  match e with
  | Errorf text None => text
  | Errorf text (Some e') => text +:+ errorText e'
  end.

(** [youtubeTransport], lines 33-36. *)
Record youtubeTransport := {
  base : Request → result Response;
  headers : gmap string string;
}.

(** The separator of [getVisitorId], line 46: a line feed and
    ytcfg.set( *)
Definition sep : string := String "010" "ytcfg.set(".

Section Start.

Variable net : Net.

(** [req.Header.Set(key, value)]. *)
Definition Header_Set (req : Request) (key value : string) : Request :=
  {| Method := Method req; RequestURL := RequestURL req;
     Header := <[CanonicalMIMEHeaderKey net key := [value]]> (Header req) |}.

(** [RoundTrip], lines 38-43.  Go ranges over a map in an order of its
    own choosing: [order] is the order of this call, a rearrangement of
    the entries of [t.headers].  The request is changed in place: the
    result is the request as the caller finds it afterwards and the
    answer of the base transport. *)
Definition RoundTrip (t : youtubeTransport) (order : list (string * string))
    (req : Request) : Request * result Response :=
  let req' := foldl (λ r kv, Header_Set r kv.1 kv.2) req order in
  (req', base t req').

(** [getVisitorId], lines 45-86. *)
Definition getVisitorId : fmtError + string :=
  match NewRequest net "GET" "https://www.youtube.com" with
  | Err err => inl (Errorf "failed to create request: " (Some err))
  | Ok req =>
      match DefaultClient_Do net req with
      | Err err => inl (Errorf "failed to perform request: " (Some err))
      | Ok resp =>
          match Body resp with
          | Err err => inl (Errorf "failed to read response body: " (Some err))
          | Ok data =>
              let '(_, ytcnf, found) := Cut data sep in
              if negb found then
                inl (Errorf "separator not found in response" None)
              else
                match Decode net ytcnf with
                | Err err => inl (Errorf "failed to decode JSON: " (Some err))
                | Ok visitorData =>
                    match PathUnescape net visitorData with
                    | Err err =>
                        inl (Errorf "failed to unescape visitor data: " (Some err))
                    | Ok visitor => inr visitor
                    end
                end
          end
      end
  end.

(** [New], lines 89-109: the transport of the client it builds, or the
    message of its panic. *)
Inductive NewOutcome :=
| NewPanics (msg : string)
| NewReturns (transport : youtubeTransport).

Definition New : NewOutcome :=
  match getVisitorId with
  | inl err => NewPanics ("failed to get visitorId: " +:+ fmtErrorText err)
  | inr visitorId =>
      NewReturns {| base := http_Transport net;
                    headers := {[ "x-goog-visitor-id" := visitorId ]} |}
  end.

End Start.

End Boot.

(** ** More test doubles *)

Module Sample.


(** A video-only format whose mime type has no parameter. *)
Definition bare : Format := Fixture.fmt 137 "video/mp4" "1080p" 0.

(** Upper-case the first letter of a key: enough of the canonical form
    for the keys below. *)
Definition capitalise (s : string) : string :=
  if bool_decide (s = "x-goog-visitor-id") then "X-Goog-Visitor-Id"
  else if bool_decide (s = "accept") then "Accept"
  else s.

Definition landing (body : string) : Boot.Response := {| Boot.Body := Ok body |}.

(** The landing page holds two configuration blobs; the decoder reads
    the visitor data from the text it is given up to the first quote. *)
Definition page : string :=
  "<html>" +:+ Boot.sep +:+ "Cgt2aXNpdG9y%3D%3D" +:+ String "034" ");"
  +:+ Boot.sep +:+ "other);".

Fixpoint upTo (c : ascii) (s : string) : string :=
  match s with
  | EmptyString => EmptyString
  | String d s' => if bool_decide (c = d) then EmptyString else String d (upTo c s')
  end.

Definition net (body : string) : Boot.Net :=
  {| Boot.CanonicalMIMEHeaderKey := capitalise;
     Boot.NewRequest := λ method url,
       Ok {| Boot.Method := method; Boot.RequestURL := url; Boot.Header := ∅ |};
     Boot.DefaultClient_Do := λ _, Ok (landing body);
     Boot.Decode := λ text, Ok (upTo "034" text);
     Boot.PathUnescape := λ s,
       if bool_decide (s = "Cgt2aXNpdG9y%3D%3D") then Ok "Cgt2aXNpdG9y=="
       else Err (Upstream "invalid URL escape");
     Boot.http_Transport := λ _, Ok (landing "ok") |}.

Definition request : Boot.Request :=
  {| Boot.Method := "GET"; Boot.RequestURL := "https://www.youtube.com/watch";
     Boot.Header := {[ "Accept" := ["*/*"]; "X-Goog-Visitor-Id" := ["stale"] ]} |}.

(** A transport with two configured headers. *)
Definition transport : Boot.youtubeTransport :=
  {| Boot.base := λ _, Ok (landing "ok");
     Boot.headers := {[ "x-goog-visitor-id" := "v1"; "accept" := "text/html" ]} |}.

(** Items 7 to 10 of a playlist of eight, one after the other. *)
Definition pastEnd : Options :=
  {| OptPlaylist := true; Items := ""; ItemStart := 7; ItemEnd := 10;
     ThreadNumber := 1 |}.

Definition outPastEnd : list (option Data) :=
  [ taskResult Fixture.env "pl" (Fixture.entryOf "e7");
    taskResult Fixture.env "pl" (Fixture.entryOf "e8");
    None; None ].

Definition cipher666 : Format := Fixture.fmt 666 "video/mp4; codecs=avc1" "720p" 2.

End Sample.

(** * Properties *)

(** ** The extension of a mime type *)

Module PatternFacts.
Import Str Pattern.

Lemma append_cons (c : ascii) (s t : string) :
  String c s +:+ t = String c (s +:+ t).
Proof. reflexivity. Qed.

Lemma append_empty (t : string) : "" +:+ t = t.
Proof. reflexivity. Qed.

Ltac unapp := rewrite ?append_cons, ?append_empty in *.

Lemma has_char_app (c : ascii) (a b : string) :
  has_char c (a +:+ b) = has_char c a || has_char c b.
Proof.
  induction a as [|x a IH]; unapp; simpl; [done |].
  rewrite IH. by destruct (bool_decide (c = x)).
Qed.

Lemma span_word_spec (s w r : string) :
  span_word s = (w, r) → s = w +:+ r ∧ all_word w = true ∧ stops r.
Proof.
  revert w r; induction s as [|c s IH]; simpl; intros w r H.
  - by inversion H.
  - destruct (is_word c) eqn:Hc.
    + destruct (span_word s) as [w' r'] eqn:Hs. inversion H; subst.
      destruct (IH w' r eq_refl) as (-> & Hw & Hr).
      unapp. simpl. by rewrite Hc, Hw.
    + inversion H; subst. unapp. simpl. by rewrite Hc.
Qed.

Lemma span_word_app (w r : string) :
  all_word w = true → stops r → span_word (w +:+ r) = (w, r).
Proof.
  intros Hw Hr. induction w as [|c w IH]; unapp; simpl in *.
  - destruct r as [|c r]; simpl in *; [done | by rewrite Hr].
  - apply andb_true_iff in Hw as [Hc Hw]. by rewrite Hc, (IH Hw).
Qed.

Lemma match_here_complete (s ty sub post : string) :
  occurs s "" ty sub post →
  match_here s = Some [ty +:+ "/" +:+ sub +:+ ";"; ty; sub].
Proof.
  intros (-> & Hty & Hsub & Wty & Wsub). unapp. unfold match_here.
  rewrite (span_word_app ty (String "/" (sub +:+ String ";" post))) by done.
  rewrite (span_word_app sub (String ";" post)) by done.
  by rewrite bool_decide_eq_true_2.
Qed.

Lemma match_here_sound (s : string) (m : list string) :
  match_here s = Some m →
  ∃ ty sub post,
    m = [ty +:+ "/" +:+ sub +:+ ";"; ty; sub] ∧ occurs s "" ty sub post.
Proof.
  unfold match_here. destruct (span_word s) as [ty r1] eqn:H1.
  destruct r1 as [|c1 r2]; [done |].
  destruct (span_word r2) as [sub r3] eqn:H2.
  destruct r3 as [|c2 post]; [done |].
  case_bool_decide as Hd; [| done]. intros [= <-].
  destruct Hd as (Hty & -> & Hsub & ->).
  apply span_word_spec in H1 as (-> & Wty & _).
  apply span_word_spec in H2 as (-> & Wsub & _).
  exists ty, sub, post. split; [done |]. by repeat split.
Qed.

Lemma MatchOneOf_unfold (text : string) :
  MatchOneOf text =
  match match_here text with
  | Some m => Some m
  | None =>
      match text with
      | EmptyString => None
      | String _ text' => MatchOneOf text'
      end
  end.
Proof. by destruct text. Qed.

Lemma occurs_cons (c : ascii) (s pre ty sub post : string) :
  occurs s pre ty sub post → occurs (String c s) (String c pre) ty sub post.
Proof. intros (-> & ?). by split. Qed.

Lemma occurs_cons_inv (c d : ascii) (s pre ty sub post : string) :
  occurs (String c s) (String d pre) ty sub post → occurs s pre ty sub post.
Proof. intros (H & ?). unapp. injection H as _ ->. by split. Qed.

Lemma MatchOneOf_complete (pre s ty sub post : string) :
  occurs s pre ty sub post → leftmost s pre →
  MatchOneOf s = Some [ty +:+ "/" +:+ sub +:+ ";"; ty; sub].
Proof.
  revert s; induction pre as [|c pre IH]; intros s Hocc Hleft.
  - rewrite MatchOneOf_unfold. by rewrite (match_here_complete _ _ _ _ Hocc).
  - rewrite MatchOneOf_unfold.
    destruct (match_here s) as [m|] eqn:Hm.
    + apply match_here_sound in Hm as (ty' & sub' & post' & _ & Hocc').
      apply Hleft in Hocc'. simpl in Hocc'. lia.
    + destruct s as [|d s].
      { destruct Hocc as (H & _). unapp. discriminate. }
      assert (d = c) as -> by (destruct Hocc as (H & _); unapp; congruence).
      apply IH.
      * by eapply occurs_cons_inv.
      * intros pre' ty' sub' post' H'.
        apply (occurs_cons c) in H'. apply Hleft in H'. simpl in H'. lia.
Qed.

Lemma MatchOneOf_sound (s : string) (m : list string) :
  MatchOneOf s = Some m →
  ∃ pre ty sub post,
    m = [ty +:+ "/" +:+ sub +:+ ";"; ty; sub]
    ∧ occurs s pre ty sub post ∧ leftmost s pre.
Proof.
  revert m; induction s as [|c s IH]; intros m; rewrite MatchOneOf_unfold.
  - done.
  - destruct (match_here (String c s)) as [m'|] eqn:Hm.
    + intros [= ->].
      apply match_here_sound in Hm as (ty & sub & post & -> & Hocc).
      exists "", ty, sub, post. split; [done |]. split; [done |].
      intros ? ? ? ? _. simpl. lia.
    + intros H. apply IH in H as (pre & ty & sub & post & -> & Hocc & Hleft).
      exists (String c pre), ty, sub, post. split; [done |]. split.
      * by apply occurs_cons.
      * intros pre' ty' sub' post' H'. destruct pre' as [|d pre'].
        { apply match_here_complete in H'. congruence. }
        apply occurs_cons_inv in H'. apply Hleft in H'. simpl. lia.
Qed.

Lemma MatchOneOf_none (s : string) :
  (∀ pre ty sub post, ¬ occurs s pre ty sub post) → MatchOneOf s = None.
Proof.
  intros Hno. destruct (MatchOneOf s) as [m|] eqn:Hm; [| done].
  apply MatchOneOf_sound in Hm as (pre & ty & sub & post & _ & Hocc & _).
  by destruct (Hno _ _ _ _ Hocc).
Qed.

Lemma occurs_has_semicolon (s pre ty sub post : string) :
  occurs s pre ty sub post → has_char ";" s = true.
Proof.
  intros (-> & _). rewrite !has_char_app. simpl.
  by rewrite !orb_true_r.
Qed.

End PatternFacts.

Lemma getStreamExt_leftmost (s pre ty sub post : string) :
  Pattern.occurs s pre ty sub post → Pattern.leftmost s pre →
  getStreamExt s = sub.
Proof.
  intros Hocc Hleft. unfold getStreamExt.
  by rewrite (PatternFacts.MatchOneOf_complete _ _ _ _ _ Hocc Hleft).
Qed.

Lemma getStreamExt_no_match (s : string) :
  (∀ pre ty sub post, ¬ Pattern.occurs s pre ty sub post) → getStreamExt s = "".
Proof.
  intros Hno. unfold getStreamExt. by rewrite PatternFacts.MatchOneOf_none.
Qed.

Lemma getStreamExt_no_semicolon (s : string) :
  Str.has_char ";" s = false → getStreamExt s = "".
Proof.
  intros Hs. apply getStreamExt_no_match. intros pre ty sub post Hocc.
  apply PatternFacts.occurs_has_semicolon in Hocc. congruence.
Qed.

(** C8.  The extension derived from a mime type is the <subtype> of the
    leftmost match of <type>/<subtype>; in it: the mime type of the
    source's comment gives webm; a mime type that starts with such a
    match gives its subtype; in general the leftmost occurrence decides;
    and a mime type in which the pattern does not occur, in particular
    one without any semicolon, gives the empty string, an ordinary
    value. *)
Theorem getStreamExt_subtype :
  getStreamExt webm_mime = "webm"
  ∧ (∀ ty sub post,
       ty ≠ "" → sub ≠ "" → Str.all_word ty = true → Str.all_word sub = true →
       getStreamExt (ty +:+ "/" +:+ sub +:+ ";" +:+ post) = sub)
  ∧ (∀ s pre ty sub post,
       Pattern.occurs s pre ty sub post → Pattern.leftmost s pre →
       getStreamExt s = sub)
  ∧ (∀ s, (∀ pre ty sub post, ¬ Pattern.occurs s pre ty sub post) →
          getStreamExt s = "")
  ∧ (∀ s, Str.has_char ";" s = false → getStreamExt s = "").
Proof.
  split; [reflexivity |]. split; [| split; [| split]].
  - intros ty sub post Hty Hsub Wty Wsub.
    apply (getStreamExt_leftmost _ "" ty sub post).
    + by repeat split.
    + intros ? ? ? ? _. simpl. lia.
  - apply getStreamExt_leftmost.
  - apply getStreamExt_no_match.
  - apply getStreamExt_no_semicolon.
Qed.

(** C8 at concrete mime types: video/mp4; codecs=avc1 (a match at
    the start, subtype mp4) and video/mp4 (no semicolon). *)
Lemma getStreamExt_subtype_witness :
  getStreamExt ("video" +:+ "/" +:+ "mp4" +:+ ";" +:+ " codecs=avc1") = "mp4"
  ∧ getStreamExt "video/mp4" = "".
Proof.
  destruct getStreamExt_subtype as (_ & Hstart & _ & _ & Hsemi).
  split.
  - apply Hstart; [discriminate | discriminate | reflexivity | reflexivity].
  - apply Hsemi. reflexivity.
Defined.

(** ** One video: the loop against the description of the spec *)

Section Resolution.

Variable env : Env.

Lemma cacheOK_empty (video : Video) : cacheOK env video ∅.
Proof. intros ext p H. by rewrite lookup_empty in H. Qed.

Lemma cacheOK_insert (video : Video) (cache : gmap string Part) ext p :
  cacheOK env video cache → spec_audioPart env video ext = Ok p →
  cacheOK env video (<[ext := p]> cache).
Proof.
  intros Hc Hp ext' p'. rewrite lookup_insert. case_decide; [| apply Hc].
  subst. by intros [= <-].
Qed.

Lemma loopBody_quality (f : Format) :
  (if bool_decide (QualityLabel f ≠ "")
   then QualityLabel f +:+ " " +:+ MimeType f else MimeType f) = spec_quality f.
Proof. unfold spec_quality. by repeat case_bool_decide. Qed.

Lemma loopBody_spec (video : Video) (f : Format) streams cache log :
  cacheOK env video cache →
  match (loopBody env video f (streams, cache) log).2 with
  | Err e => spec_stream env video f = Err e
  | Ok (m, c) =>
      ∃ s, spec_stream env video f = Ok s ∧ m = <[ID s := s]> streams
           ∧ cacheOK env video c
  end.
Proof.
  intros Hc. unfold loopBody, spec_stream, mbind, M_bind, call, mret, M_ret.
  rewrite loopBody_quality.
  destruct (genPartByFormat env video f) as [part|e]; simpl; [| done].
  case_bool_decide; simpl; [| by eexists].
  destruct (cache !! PartExt part) as [ap|] eqn:Hap; simpl.
  - rewrite (Hc _ _ Hap). by eexists.
  - unfold spec_audioPart in *.
    destruct (getVideoAudio env video (PartExt part)) as [audio|e] eqn:Ha;
      simpl; [| done].
    destruct (genPartByFormat env video audio) as [ap|e] eqn:Hp; simpl; [| done].
    eexists. split; [done |]. split; [done |].
    apply cacheOK_insert; [done |]. unfold spec_audioPart. by rewrite Ha.
Qed.

Lemma forFormats_cons (video : Video) (f : Format) (fs : list Format) st log :
  forFormats env video (f :: fs) st log =
  match loopBody env video f st log with
  | (log', Ok st') => forFormats env video fs st' log'
  | (log', Err e) => (log', Err e)
  end.
Proof. reflexivity. Qed.

Lemma forFormats_spec (video : Video) (fs : list Format) streams cache log :
  cacheOK env video cache →
  match (forFormats env video fs (streams, cache) log).2 with
  | Err e => spec_catalogue env video fs streams = Err e
  | Ok (m, c) => spec_catalogue env video fs streams = Ok m ∧ cacheOK env video c
  end.
Proof.
  revert streams cache log; induction fs as [|f fs IH]; intros streams cache log Hc.
  - done.
  - rewrite forFormats_cons.
    pose proof (loopBody_spec video f streams cache log Hc) as Hb.
    destruct (loopBody env video f (streams, cache) log) as [log' [[m c]|e]];
      simpl in Hb.
    + destruct Hb as (s & Hs & -> & Hc'). simpl. rewrite Hs. by apply IH.
    + simpl. by rewrite Hb.
Qed.

(** [youtubeDownload] computes the catalogue the spec describes. *)
Lemma youtubeDownload_spec (url : string) (video : Video) :
  youtubeDownload env url video =
  match spec_catalogue env video (Formats video) ∅ with
  | Err err => EmptyData url err
  | Ok streams =>
      {| DataURL := url; Site := "YouTube youtube.com";
         DataTitle := Title video; Type_ := "video";
         Streams := streams; DataErr := None |}
  end.
Proof.
  unfold youtubeDownload, youtubeDownload_traced.
  pose proof (forFormats_spec video (Formats video) ∅ ∅ [] (cacheOK_empty video)) as H.
  destruct (forFormats env video (Formats video) (∅, ∅) []) as [log [[m c]|e]];
    simpl in *.
  - by destruct H as [-> _].
  - by rewrite H.
Qed.

(** *** The collaborators' answers *)

Lemma FormatList_Type_elem (value : string) (l : list Format) (f : Format) :
  f ∈ FormatList_Type value l ↔ f ∈ l ∧ Str.Contains (MimeType f) value = true.
Proof. unfold FormatList_Type. rewrite list_elem_of_filter. tauto. Qed.

Lemma audioFormats_elem (v : Video) (ext : string) (f : Format) :
  f ∈ audioFormats v ext ↔
  f ∈ Formats v ∧ Str.Contains (MimeType f) ext = true
  ∧ Str.Contains (MimeType f) "audio" = true.
Proof. unfold audioFormats. rewrite !FormatList_Type_elem. tauto. Qed.

Lemma hasPrefix_app (p s : string) : Str.hasPrefix p (p +:+ s) = true.
Proof.
  induction p as [|c p IH]; [done |]. rewrite PatternFacts.append_cons. simpl.
  by rewrite bool_decide_eq_true_2, IH.
Qed.

Lemma Contains_app (pre sub post : string) :
  Str.Contains (pre +:+ sub +:+ post) sub = true.
Proof.
  induction pre as [|c pre IH].
  - rewrite PatternFacts.append_empty.
    destruct (sub +:+ post) eqn:Heq; simpl; rewrite <- Heq, hasPrefix_app; done.
  - rewrite PatternFacts.append_cons. simpl. rewrite IH. apply orb_true_r.
Qed.

(** An audio format that names the extension, audio/<ext>;..., is one of
    the audio formats of the extension. *)
Lemma audioFormats_named (v : Video) (ext params : string) (a : Format) :
  a ∈ Formats v → MimeType a = "audio/" +:+ ext +:+ ";" +:+ params →
  a ∈ audioFormats v ext.
Proof.
  intros Ha Hm. apply audioFormats_elem. split; [done |]. rewrite Hm. split.
  - apply (Contains_app "audio/" ext (";" +:+ params)).
  - apply (Contains_app "" "audio" ("/" +:+ ext +:+ ";" +:+ params)).
Qed.

Lemma Sort_hd_elem (a0 : Format) (l : list Format) :
  hd a0 (FormatList_Sort env (a0 :: l)) ∈ a0 :: l.
Proof.
  pose proof (FormatList_Sort_perm env (a0 :: l)) as Hp.
  destruct (FormatList_Sort env (a0 :: l)) as [|b k] eqn:Hs.
  - by apply Permutation_nil_cons in Hp.
  - simpl. rewrite <- Hp. by left.
Qed.

Lemma getVideoAudio_Ok (v : Video) (ext : string) (a : Format) :
  getVideoAudio env v ext = Ok a → a ∈ audioFormats v ext.
Proof.
  unfold getVideoAudio. fold (audioFormats v ext).
  destruct (audioFormats v ext) as [|a0 l] eqn:Hl; [done |].
  intros [= <-]. apply Sort_hd_elem.
Qed.

Lemma getVideoAudio_Err (v : Video) (ext : string) (e : error) :
  getVideoAudio env v ext = Err e →
  e = New "no audio format found after filtering" ∧ audioFormats v ext = [].
Proof.
  unfold getVideoAudio. fold (audioFormats v ext).
  destruct (audioFormats v ext) as [|a0 l]; [| done]. by intros [= <-].
Qed.

Lemma getVideoAudio_found (v : Video) (ext : string) :
  audioFormats v ext ≠ [] → ∃ a, getVideoAudio env v ext = Ok a.
Proof.
  unfold getVideoAudio. fold (audioFormats v ext).
  destruct (audioFormats v ext) as [|a0 l]; [done |]. by eexists.
Qed.

Lemma genPartByFormat_Ok (v : Video) (f : Format) (p : Part) :
  genPartByFormat env v f = Ok p →
  GetStreamURL env v f = Ok (URL p) ∧ PartExt p = getStreamExt (MimeType f).
Proof.
  unfold genPartByFormat. destruct (GetStreamURL env v f); [| done].
  by intros [= <-].
Qed.

Lemma genPartByFormat_Err (v : Video) (f : Format) (e : error) :
  genPartByFormat env v f = Err e →
  ∃ e0, GetStreamURL env v f = Err e0 ∧ e = WithStack e0.
Proof.
  unfold genPartByFormat. destruct (GetStreamURL env v f); [done |].
  intros [= <-]. by eexists.
Qed.

Lemma genPartByFormat_resolves (v : Video) (f : Format) (u : string) :
  GetStreamURL env v f = Ok u → ∃ p, genPartByFormat env v f = Ok p.
Proof. unfold genPartByFormat. intros ->. by eexists. Qed.

(** *** The stream of one format *)

Lemma spec_stream_Ok (v : Video) (f : Format) (s : Stream) :
  spec_stream env v f = Ok s →
  ∃ part,
    genPartByFormat env v f = Ok part
    ∧ ID s = Itoa (ItagNo f) ∧ Quality s = spec_quality f
    ∧ Ext s = PartExt part ∧ NeedMux s = true
    ∧ ((AudioChannels f = 0%Z
        ∧ ∃ audio audioPart,
            getVideoAudio env v (PartExt part) = Ok audio
            ∧ genPartByFormat env v audio = Ok audioPart
            ∧ Parts s = [part; audioPart])
       ∨ (AudioChannels f ≠ 0%Z ∧ Parts s = [part])).
Proof.
  unfold spec_stream, spec_audioPart.
  destruct (genPartByFormat env v f) as [part|]; [| done].
  case_bool_decide.
  - destruct (getVideoAudio env v (PartExt part)) as [audio|] eqn:Ha; [| done].
    destruct (genPartByFormat env v audio) as [ap|] eqn:Hp; [| done].
    intros [= <-]. exists part. repeat split; try done.
    left. split; [done |]. by exists audio, ap.
  - intros [= <-]. exists part. repeat split; try done. by right.
Qed.

Lemma spec_stream_Err (v : Video) (f : Format) (e : error) :
  spec_stream env v f = Err e →
  (∃ e0, GetStreamURL env v f = Err e0 ∧ e = WithStack e0)
  ∨ (AudioChannels f = 0%Z
     ∧ audioFormats v (getStreamExt (MimeType f)) = []
     ∧ e = New "no audio format found after filtering")
  ∨ (AudioChannels f = 0%Z
     ∧ ∃ audio e0, audio ∈ audioFormats v (getStreamExt (MimeType f))
                   ∧ GetStreamURL env v audio = Err e0 ∧ e = WithStack e0).
Proof.
  unfold spec_stream, spec_audioPart.
  destruct (genPartByFormat env v f) as [part|e1] eqn:Hf.
  - apply genPartByFormat_Ok in Hf as [_ Hext]. rewrite Hext.
    case_bool_decide; [| done].
    destruct (getVideoAudio env v _) as [audio|e1] eqn:Ha.
    + destruct (genPartByFormat env v audio) as [ap|e1] eqn:Hp; [done |].
      intros [= <-]. right; right. split; [done |].
      apply genPartByFormat_Err in Hp as (e0 & ? & ->).
      exists audio, e0. split; [by apply getVideoAudio_Ok | done].
    + intros [= <-]. right; left.
      by apply getVideoAudio_Err in Ha as [-> ?].
  - intros [= <-]. left. by apply genPartByFormat_Err.
Qed.

Lemma spec_stream_total (v : Video) (f : Format) :
  (∀ g, g ∈ Formats v → ∃ u, GetStreamURL env v g = Ok u) →
  f ∈ Formats v →
  (AudioChannels f = 0%Z → audioFormats v (getStreamExt (MimeType f)) ≠ []) →
  ∃ s, spec_stream env v f = Ok s.
Proof.
  intros Hurl Hf Haudio.
  destruct (spec_stream env v f) as [s|e] eqn:Hs; [by eexists |].
  apply spec_stream_Err in Hs
    as [(e0 & He & _) | [(Hz & Hnone & _) | (Hz & a & e0 & Ha & He & _)]].
  - destruct (Hurl f Hf) as [u Hu]. congruence.
  - by destruct (Haudio Hz).
  - apply audioFormats_elem in Ha as (Ha & _).
    destruct (Hurl a Ha) as [u Hu]. congruence.
Qed.

(** *** The catalogue *)

Lemma spec_catalogue_Err (v : Video) (fs : list Format) m0 (e : error) :
  spec_catalogue env v fs m0 = Err e →
  ∃ f, f ∈ fs ∧ spec_stream env v f = Err e.
Proof.
  revert m0; induction fs as [|f fs IH]; intros m0; simpl; [done |].
  destruct (spec_stream env v f) as [s|e1] eqn:Hs.
  - intros H. apply IH in H as (g & Hg & He). exists g. split; [by right | done].
  - intros [= <-]. exists f. split; [by left | done].
Qed.

Lemma spec_catalogue_Ok_all (v : Video) (fs : list Format) m0 m :
  spec_catalogue env v fs m0 = Ok m →
  ∀ f, f ∈ fs → ∃ s, spec_stream env v f = Ok s.
Proof.
  revert m0; induction fs as [|f fs IH]; intros m0; simpl.
  - intros _ f Hf. by apply elem_of_nil in Hf.
  - destruct (spec_stream env v f) as [s|e1] eqn:Hs; [| done].
    intros H g Hg. apply elem_of_cons in Hg as [-> | Hg]; [by eexists |].
    by eapply IH.
Qed.

Lemma spec_catalogue_total (v : Video) (fs : list Format) m0 :
  (∀ f, f ∈ fs → ∃ s, spec_stream env v f = Ok s) →
  ∃ m, spec_catalogue env v fs m0 = Ok m.
Proof.
  revert m0; induction fs as [|f fs IH]; intros m0 Hall; simpl; [by eexists |].
  destruct (Hall f) as [s ->]; [by left |].
  apply IH. intros g Hg. apply Hall. by right.
Qed.

Lemma spec_catalogue_fails (v : Video) (fs : list Format) m0 (f : Format) e :
  f ∈ fs → spec_stream env v f = Err e →
  ∃ e', spec_catalogue env v fs m0 = Err e'.
Proof.
  intros Hf He.
  destruct (spec_catalogue env v fs m0) as [m|e'] eqn:Hc; [| by eexists].
  destruct (spec_catalogue_Ok_all _ _ _ _ Hc f Hf) as [s Hs]. congruence.
Qed.

Lemma spec_catalogue_other (v : Video) (fs : list Format) m0 m (id : string) :
  spec_catalogue env v fs m0 = Ok m →
  (∀ h, h ∈ fs → Itoa (ItagNo h) ≠ id) →
  m !! id = m0 !! id.
Proof.
  revert m0; induction fs as [|f fs IH]; intros m0; simpl.
  - by intros [= <-].
  - destruct (spec_stream env v f) as [s|e1] eqn:Hs; [| done].
    intros H Hne. rewrite (IH _ H) by (intros h Hh; apply Hne; by right).
    apply spec_stream_Ok in Hs as (_ & _ & Hid & _).
    apply lookup_insert_ne. rewrite Hid. apply Hne. by left.
Qed.

Lemma spec_catalogue_last (v : Video) (l1 l2 : list Format) (f : Format) m0 m :
  spec_catalogue env v (l1 ++ f :: l2) m0 = Ok m →
  (∀ h, h ∈ l2 → ItagNo h ≠ ItagNo f) →
  ∃ s, spec_stream env v f = Ok s ∧ m !! Itoa (ItagNo f) = Some s.
Proof.
  revert m0; induction l1 as [|g l1 IH]; intros m0; simpl.
  - destruct (spec_stream env v f) as [s|e1] eqn:Hs; [| done].
    intros H Hne. exists s. split; [done |].
    rewrite (spec_catalogue_other _ _ _ _ _ H).
    + apply spec_stream_Ok in Hs as (_ & _ & <- & _). apply lookup_insert_eq.
    + intros h Hh Heq. apply (Hne h Hh). by apply (inj pretty).
  - destruct (spec_stream env v g) as [s|e1]; [| done]. apply IH.
Qed.

Lemma spec_catalogue_lookup (v : Video) (fs : list Format) m0 m id (s : Stream) :
  spec_catalogue env v fs m0 = Ok m → m !! id = Some s →
  m0 !! id = Some s
  ∨ ∃ f, f ∈ fs ∧ id = Itoa (ItagNo f) ∧ spec_stream env v f = Ok s.
Proof.
  revert m0; induction fs as [|f fs IH]; intros m0; simpl.
  - intros [= <-] ?. by left.
  - destruct (spec_stream env v f) as [s'|e1] eqn:Hs; [| done].
    intros H Hm. destruct (IH _ H Hm) as [H0 | (g & Hg & -> & Hs')].
    + rewrite lookup_insert in H0. case_decide as Hid; [| by left].
      injection H0 as ->. right. exists f. split; [by left |].
      apply spec_stream_Ok in Hs as Hs'. destruct Hs' as (_ & _ & Hid' & _).
      by rewrite <- Hid, Hid'.
    + right. exists g. split; [by right | done].
Qed.

Lemma spec_catalogue_dom (v : Video) (fs : list Format) m0 m :
  spec_catalogue env v fs m0 = Ok m →
  dom m = dom m0 ∪ list_to_set ((λ f, Itoa (ItagNo f)) <$> fs).
Proof.
  revert m0; induction fs as [|f fs IH]; intros m0; simpl.
  - intros [= <-]. simpl. by rewrite (right_id_L ∅ (∪)).
  - destruct (spec_stream env v f) as [s|e1] eqn:Hs; [| done].
    intros H. rewrite (IH _ H), dom_insert_L. simpl.
    apply spec_stream_Ok in Hs as (_ & _ & -> & _).
    by rewrite (comm_L (∪) {[Itoa (ItagNo f)]} (dom m0)), (assoc_L (∪)).
Qed.

Lemma spec_stream_parts (v : Video) (f : Format) (s : Stream) :
  spec_stream env v f = Ok s → hasPartsOf env v f s.
Proof.
  intros Hs. apply spec_stream_Ok in Hs as (part & Hp & _ & _ & _ & _ & Hparts).
  exists part. split; [done |].
  destruct Hparts as [(Hz & audio & ap & Ha & Hap & Hps) | (Hz & Hps)].
  - rewrite bool_decide_eq_true_2 by done.
    exists audio, ap. split; [by apply getVideoAudio_Ok | done].
  - by rewrite bool_decide_eq_false_2.
Qed.

(** *** The result of [youtubeDownload] *)

Lemma youtubeDownload_failed (url : string) (v : Video) (e : error) :
  spec_catalogue env v (Formats v) ∅ = Err e →
  youtubeDownload env url v = EmptyData url e.
Proof. intros H. by rewrite youtubeDownload_spec, H. Qed.

Lemma youtubeDownload_succeeded (url : string) (v : Video) :
  DataErr (youtubeDownload env url v) = None →
  ∃ m, spec_catalogue env v (Formats v) ∅ = Ok m
       ∧ Streams (youtubeDownload env url v) = m.
Proof.
  rewrite youtubeDownload_spec.
  destruct (spec_catalogue env v (Formats v) ∅) as [m|e]; [| done].
  intros _. by exists m.
Qed.

Lemma youtubeDownload_stream (url : string) (v : Video) id (s : Stream) :
  Streams (youtubeDownload env url v) !! id = Some s →
  ∃ f, f ∈ Formats v ∧ id = Itoa (ItagNo f) ∧ spec_stream env v f = Ok s.
Proof.
  rewrite youtubeDownload_spec.
  destruct (spec_catalogue env v (Formats v) ∅) as [m|e] eqn:Hc; simpl.
  - intros Hm. destruct (spec_catalogue_lookup _ _ _ _ _ _ Hc Hm) as [H0 | H];
      [by rewrite lookup_empty in H0 | done].
  - by rewrite lookup_empty.
Qed.

(** C1, as the code has it.  Every stream of the result has [NeedMux]
    set, whatever the audio-channel count of the format it is built from:
    line 172 sets the flag and nothing clears it. *)
Theorem NeedMux_always_set (url : string) (v : Video) (id : string) (s : Stream) :
  Streams (youtubeDownload env url v) !! id = Some s →
  NeedMux s = true
  ∧ ∃ f, f ∈ Formats v ∧ id = Itoa (ItagNo f) ∧ ID s = id.
Proof.
  intros H. apply youtubeDownload_stream in H as (f & Hf & -> & Hs).
  apply spec_stream_Ok in Hs as (_ & _ & Hid & _ & _ & Hmux & _).
  split; [done |]. by exists f.
Qed.

(** C4.  When the URL of some format of the video does not resolve, or
    some video-only format has no audio format of its extension (the
    list of line 226 is empty), [youtubeDownload] returns the
    failure-shaped [EmptyData url cause]: it carries the source URL and
    the cause, it has no stream at all, and the cause is the wrapped
    error of a URL resolution or the error of [getVideoAudio].  The
    single-URL call of [Extract] then returns exactly this one result. *)
Theorem youtubeDownload_aborts (url : string) (v : Video) :
  (∃ f e, f ∈ Formats v ∧ GetStreamURL env v f = Err e)
  ∨ (∃ f, f ∈ Formats v ∧ AudioChannels f = 0%Z
          ∧ audioFormats v (getStreamExt (MimeType f)) = []) →
  ∃ cause,
    youtubeDownload env url v = EmptyData url cause
    ∧ DataURL (youtubeDownload env url v) = url
    ∧ DataErr (youtubeDownload env url v) = Some cause
    ∧ Streams (youtubeDownload env url v) = ∅
    ∧ ((∃ g e, g ∈ Formats v ∧ GetStreamURL env v g = Err e ∧ cause = WithStack e)
       ∨ cause = New "no audio format found after filtering")
    ∧ ∀ sched opts,
        OptPlaylist opts = false → GetVideo env url = Ok v →
        Extract env sched url opts
        = Some (Returns (Some [Some (EmptyData url cause)]) None).
Proof.
  intros Hfail.
  assert (∃ f e, f ∈ Formats v ∧ spec_stream env v f = Err e)
    as (f & e & Hf & He).
  { destruct Hfail as [(f & e & Hf & He) | (f & Hf & Hz & Hnone)].
    - exists f, (WithStack e). split; [done |].
      unfold spec_stream, genPartByFormat. by rewrite He.
    - destruct (spec_stream env v f) as [s|e] eqn:Hs; [| by exists f, e].
      apply spec_stream_Ok in Hs
        as (part & Hp & _ & _ & _ & _ & [(_ & a & ap & Ha & _) | (Hnz & _)]);
        [| done].
      apply getVideoAudio_Ok in Ha.
      apply genPartByFormat_Ok in Hp as [_ Hext].
      rewrite Hext, Hnone in Ha. by apply elem_of_nil in Ha. }
  destruct (spec_catalogue_fails v (Formats v) ∅ f e Hf He) as [cause Hc].
  exists cause. rewrite (youtubeDownload_failed url v cause Hc).
  repeat split; try done.
  - apply spec_catalogue_Err in Hc as (g & Hg & Hge).
    apply spec_stream_Err in Hge
      as [(e0 & He0 & ->) | [(_ & _ & ->) | (_ & a & e0 & Ha & He0 & ->)]].
    + left. by exists g, e0.
    + by right.
    + left. exists a, e0. by apply audioFormats_elem in Ha as (Ha & _).
  - intros sched opts Hsingle Hv. unfold Extract.
    by rewrite Hsingle, Hv, (youtubeDownload_failed url v cause Hc).
Qed.

(** C6.  In a result without error: the stream under the tag of a format
    [f] (the last format of the list with that tag) has the parts of [f];
    and every stream of the result has the parts of a format of the
    list.  The parts of [f] are its own part alone when [f] has audio
    channels; for a video-only [f] they are its own part first and
    second the part of the audio format that [getVideoAudio] selects
    among the formats of the list matching the extension. *)
Theorem stream_parts (url : string) (v : Video) :
  DataErr (youtubeDownload env url v) = None →
  (∀ l1 f l2,
     Formats v = l1 ++ f :: l2 → (∀ h, h ∈ l2 → ItagNo h ≠ ItagNo f) →
     ∃ s, Streams (youtubeDownload env url v) !! Itoa (ItagNo f) = Some s
          ∧ hasPartsOf env v f s)
  ∧ (∀ id s,
       Streams (youtubeDownload env url v) !! id = Some s →
       ∃ f, f ∈ Formats v ∧ id = Itoa (ItagNo f) ∧ hasPartsOf env v f s).
Proof.
  intros Hok. split.
  - intros l1 f l2 Hfs Hlast.
    apply youtubeDownload_succeeded in Hok as (m & Hc & ->).
    rewrite Hfs in Hc.
    destruct (spec_catalogue_last _ _ _ _ _ _ Hc Hlast) as (s & Hs & Hm).
    exists s. split; [done |]. by apply spec_stream_parts.
  - intros id s Hm. apply youtubeDownload_stream in Hm as (f & Hf & -> & Hs).
    exists f. repeat split; try done. by apply spec_stream_parts.
Qed.

(** C9.  Formats may share a tag.  When every URL of the list resolves
    and every video-only format has an audio format of its extension,
    the resolution succeeds, duplicate tags or not; the keys of the
    stream map are the tags of the list, one entry each; and the entry
    of a tag is built from the last format of the list with that tag. *)
Theorem duplicate_tags_last_wins (url : string) (v : Video) :
  (∀ g, g ∈ Formats v → ∃ u, GetStreamURL env v g = Ok u) →
  (∀ f, f ∈ Formats v → AudioChannels f = 0%Z →
        audioFormats v (getStreamExt (MimeType f)) ≠ []) →
  DataErr (youtubeDownload env url v) = None
  ∧ dom (Streams (youtubeDownload env url v))
    = list_to_set ((λ f, Itoa (ItagNo f)) <$> Formats v)
  ∧ ∀ l1 f l2,
      Formats v = l1 ++ f :: l2 → (∀ h, h ∈ l2 → ItagNo h ≠ ItagNo f) →
      ∃ s, Streams (youtubeDownload env url v) !! Itoa (ItagNo f) = Some s
           ∧ ID s = Itoa (ItagNo f)
           ∧ Quality s = spec_quality f
           ∧ Ext s = getStreamExt (MimeType f)
           ∧ hasPartsOf env v f s.
Proof.
  intros Hurl Haudio.
  destruct (spec_catalogue_total v (Formats v) ∅) as [m Hc].
  { intros f Hf. apply spec_stream_total; auto. }
  rewrite youtubeDownload_spec, Hc. simpl. split; [done |]. split.
  - by rewrite (spec_catalogue_dom _ _ _ _ Hc), dom_empty_L, (left_id_L ∅ (∪)).
  - intros l1 f l2 Hfs Hlast. rewrite Hfs in Hc.
    destruct (spec_catalogue_last _ _ _ _ _ _ Hc Hlast) as (s & Hs & Hm).
    exists s. split; [done |].
    apply spec_stream_Ok in Hs as Hs'.
    destruct Hs' as (part & Hp & Hid & Hq & Hext & _).
    apply genPartByFormat_Ok in Hp as [_ Hpe].
    repeat split; try done; [congruence | by apply spec_stream_parts].
Qed.

(** *** The trace of the loop *)

Lemma countCalls_app (p : Call → bool) (l1 l2 : list Call) :
  countCalls p (l1 ++ l2) = countCalls p l1 + countCalls p l2.
Proof. induction l1 as [|c l1 IH]; simpl; [done | rewrite IH; lia]. Qed.

Lemma forFormats_invariant (video : Video)
    (I : LoopState → list Call → Prop) (Q : list Call → Prop) :
  (∀ f st log, I st log →
     match loopBody env video f st log with
     | (log', Ok st') => I st' log'
     | (log', Err _) => Q log'
     end) →
  ∀ fs st log, I st log →
    match forFormats env video fs st log with
    | (log', Ok st') => I st' log'
    | (log', Err _) => Q log'
    end.
Proof.
  intros Hbody fs. induction fs as [|f fs IH]; intros st log HI; [done |].
  rewrite forFormats_cons. specialize (Hbody f st log HI).
  destruct (loopBody env video f st log) as [log' [st'|e]]; [by apply IH | done].
Qed.

Lemma onceInv_end (cache : gmap string Part) (log : list Call) :
  onceInv cache log → onceEnd log.
Proof. intros H ext. destruct (H ext) as (? & ? & _). done. Qed.

Ltac count_calls Hinv Hmiss :=
  let ext := fresh "ext" in
  let Hl := fresh "Hl" in
  let Ha := fresh "Ha" in
  let Hz := fresh "Hz" in
  intros ext; destruct (Hinv ext) as (Hl & Ha & Hz);
  rewrite ?countCalls_app; simpl; rewrite ?lookup_insert;
  repeat case_bool_decide; repeat case_decide; simplify_eq;
  try (destruct (Hz Hmiss));
  repeat match goal with
    | |- _ ∧ _ => split
    | |- _ → _ =>
        let Hn := fresh "Hn" in
        intros Hn; try discriminate Hn; try (destruct (Hz Hn))
    end;
  lia.

Lemma loopBody_once (video : Video) (f : Format) (st : LoopState) log :
  onceInv st.2 log →
  match loopBody env video f st log with
  | (log', Ok st') => onceInv st'.2 log'
  | (log', Err _) => onceEnd log'
  end.
Proof.
  destruct st as [streams cache]. simpl. intros Hinv.
  unfold loopBody, mbind, M_bind, call, mret, M_ret, onceInv, onceEnd.
  destruct (genPartByFormat env video f) as [part|e]; simpl;
    [| count_calls Hinv I].
  case_bool_decide; simpl; [| count_calls Hinv I].
  destruct (cache !! PartExt part) as [ap|] eqn:Hmiss; simpl;
    [count_calls Hinv I |].
  destruct (getVideoAudio env video (PartExt part)) as [audio|e]; simpl;
    [| count_calls Hinv Hmiss].
  destruct (genPartByFormat env video audio) as [ap|e]; simpl;
    count_calls Hinv Hmiss.
Qed.

Lemma servedBy_mono (video : Video) (log log' : list Call) ext p :
  servedBy env video log ext p → servedBy env video (log ++ log') ext p.
Proof.
  intros (a & Ha & Hp). exists a. split; [| done].
  apply elem_of_app. by left.
Qed.

Lemma servedInv_insert (video : Video) streams cache log id (s : Stream) :
  servedInv env video (streams, cache) log →
  (∀ p, Parts s !! 1 = Some p → servedBy env video log (Ext s) p) →
  servedInv env video (<[id := s]> streams, cache) log.
Proof.
  intros [Hc Hs] Hnew. split; [done |]. simpl. intros id' s' p.
  rewrite lookup_insert. case_decide.
  - intros [= <-]. apply Hnew.
  - apply Hs.
Qed.

Lemma servedInv_mono (video : Video) (st : LoopState) (log log' : list Call) :
  servedInv env video st log → servedInv env video st (log ++ log').
Proof.
  intros [Hc Hs]. split.
  - intros ext p H. by apply servedBy_mono, Hc.
  - intros id s p H1 H2. by eapply servedBy_mono, Hs.
Qed.

Lemma loopBody_served (video : Video) (f : Format) (st : LoopState) log :
  servedInv env video st log →
  match loopBody env video f st log with
  | (log', Ok st') => servedInv env video st' log'
  | (log', Err _) => True
  end.
Proof.
  destruct st as [streams cache]. intros Hinv.
  unfold loopBody, mbind, M_bind, call, mret, M_ret.
  destruct (genPartByFormat env video f) as [part|e]; simpl; [| done].
  apply (servedInv_mono _ _ _ [CallGenPart f]) in Hinv.
  case_bool_decide; simpl.
  2:{ apply servedInv_insert; [done |]. simpl. intros p. done. }
  destruct (cache !! PartExt part) as [ap|] eqn:Hhit; simpl.
  - apply servedInv_insert; [done |]. simpl. intros p [= <-].
    destruct Hinv as [Hc _]. by apply Hc.
  - destruct (getVideoAudio env video (PartExt part)) as [audio|e]; simpl;
      [| done].
    destruct (genPartByFormat env video audio) as [ap|e] eqn:Hap; simpl;
      [| done].
    apply (servedInv_mono _ _ _ [CallGetVideoAudio (PartExt part)]) in Hinv.
    apply (servedInv_mono _ _ _ [CallGenAudioPart (PartExt part) audio]) in Hinv.
    assert (servedBy env video
              (((log ++ [CallGenPart f]) ++ [CallGetVideoAudio (PartExt part)])
                 ++ [CallGenAudioPart (PartExt part) audio]) (PartExt part) ap)
      as Hserved.
    { exists audio. split; [| done]. apply elem_of_app. right. by left. }
    apply servedInv_insert.
    + destruct Hinv as [Hc Hs]. split; [| done]. simpl. intros ext p.
      rewrite lookup_insert. case_decide.
      * subst. by intros [= <-].
      * apply Hc.
    + simpl. by intros p [= <-].
Qed.

(** C3.  In the trace of one resolution, every extension is looked up by
    [getVideoAudio] (line 184) at most once, and the part of its audio
    format is resolved (line 188) at most once, however many video-only
    formats share the extension and whether the resolution succeeds or
    aborts.  The second part of every stream of the result is the part
    that this one call for the stream's extension produced. *)
Theorem audio_resolved_once (url : string) (v : Video) :
  (∀ ext,
     countCalls (isLookup ext) (youtubeDownload_calls env url v) ≤ 1
     ∧ countCalls (isAudioPart ext) (youtubeDownload_calls env url v) ≤ 1)
  ∧ (∀ id s p,
       Streams (youtubeDownload env url v) !! id = Some s →
       Parts s !! 1 = Some p →
       servedBy env v (youtubeDownload_calls env url v) (Ext s) p).
Proof.
  unfold youtubeDownload_calls, youtubeDownload, youtubeDownload_traced.
  split.
  - pose proof (forFormats_invariant v (λ st log, onceInv st.2 log) onceEnd
                  (loopBody_once v) (Formats v) (∅, ∅) []) as H.
    destruct (forFormats env v (Formats v) (∅, ∅) []) as [log [[m c]|e]]; simpl.
    + eapply onceInv_end. apply H. intros ext. simpl. repeat split; lia.
    + apply H. intros ext. simpl. repeat split; lia.
  - pose proof (forFormats_invariant v (servedInv env v) (λ _, True)
                  (loopBody_served v) (Formats v) (∅, ∅) []) as H.
    destruct (forFormats env v (Formats v) (∅, ∅) []) as [log [[m c]|e]]; simpl.
    + intros id s p Hs Hp. destruct H as [_ H].
      * split; simpl.
        -- intros ? ? Hx. by rewrite lookup_empty in Hx.
        -- intros ? ? ? Hx. by rewrite lookup_empty in Hx.
      * by eapply H.
    + intros id s p. by rewrite lookup_empty.
Qed.

End Resolution.

(** ** The playlist path *)

Section Playlist.

Variable env : Env.

(** *** The goroutines the loop starts *)

Lemma spawnList_slot (items : list Z) (videos : list PlaylistEntry)
    (index d k : nat) (t : Task) :
  spawnList items index d videos !! k = Some t → slot t = d + k.
Proof.
  revert index d k; induction videos as [|e videos IH]; intros index d k;
    simpl; [done |].
  case_bool_decide; [| apply IH].
  destruct k as [|k]; simpl.
  - intros [= <-]. simpl. lia.
  - intros Hk. apply IH in Hk. lia.
Qed.

Lemma spawnList_length (items : list Z) (videos : list PlaylistEntry)
    (index d : nat) :
  length (spawnList items index d videos)
  = length (filter (λ i, (Z.of_nat i + 1)%Z ∈ items) (seq index (length videos))).
Proof.
  revert index d; induction videos as [|e videos IH]; intros index d;
    simpl; [done |].
  rewrite filter_cons. case_bool_decide; case_decide; try done; simpl;
    by rewrite IH.
Qed.

Lemma spawnList_entry (items : list Z) (videos : list PlaylistEntry)
    (index d k p : nat) :
  filter (λ i, (Z.of_nat i + 1)%Z ∈ items) (seq index (length videos)) !! k
  = Some p →
  ∃ e, videos !! (p - index) = Some e
       ∧ spawnList items index d videos !! k = Some {| slot := d + k; entry := e |}.
Proof.
  revert index d k; induction videos as [|e videos IH]; intros index d k;
    simpl; [done |].
  rewrite filter_cons.
  assert (∀ k' d', filter (λ i, (Z.of_nat i + 1)%Z ∈ items)
                     (seq (S index) (length videos)) !! k' = Some p →
          ∃ e', (e :: videos) !! (p - index) = Some e'
                ∧ spawnList items (S index) d' videos !! k'
                  = Some {| slot := d' + k'; entry := e' |}) as Hrest.
  { intros k' d' Hk. destruct (IH _ d' _ Hk) as (e' & He' & Hs).
    exists e'. split; [| done].
    apply list_elem_of_lookup_2, list_elem_of_filter in Hk as [_ Hp].
    apply elem_of_seq in Hp.
    replace (p - index) with (S (p - S index)) by lia. done. }
  case_bool_decide; case_decide; try done.
  - destruct k as [|k]; simpl.
    + intros [= <-]. exists e. rewrite Nat.sub_diag, Nat.add_0_r. done.
    + intros Hk. destruct (Hrest _ (S d) Hk) as (e' & He' & Hs).
      exists e'. split; [done |]. rewrite Hs. do 2 f_equal. lia.
  - apply Hrest.
Qed.

#[local] Instance position_inj : Inj (=) (=) (λ i : nat, (Z.of_nat i + 1)%Z).
Proof. intros a b ?. lia. Qed.

Lemma selected_le_items (items : list Z) (n : nat) :
  length (selectedPositions items n) ≤ length items.
Proof.
  unfold selectedPositions.
  rewrite <- (length_fmap (λ i : nat, (Z.of_nat i + 1)%Z)).
  apply submseteq_length, NoDup_submseteq.
  - apply (NoDup_fmap_2 _). apply NoDup_filter, NoDup_seq.
  - intros x Hx. apply list_elem_of_fmap in Hx as (i & -> & Hi).
    by apply list_elem_of_filter in Hi as [Hi _].
Qed.

Lemma selected_all_items (items : list Z) (n : nat) :
  NoDup items → (∀ x, x ∈ items → (1 ≤ x ≤ Z.of_nat n)%Z) →
  length (selectedPositions items n) = length items.
Proof.
  intros Hnd Hrange. unfold selectedPositions.
  rewrite <- (length_fmap (λ i : nat, (Z.of_nat i + 1)%Z)).
  apply Permutation_length, NoDup_Permutation; [| done |].
  - apply (NoDup_fmap_2 _). apply NoDup_filter, NoDup_seq.
  - intros x. rewrite list_elem_of_fmap. split.
    + intros (i & -> & Hi). by apply list_elem_of_filter in Hi as [Hi _].
    + intros Hx. exists (Z.to_nat (x - 1)). specialize (Hrange x Hx).
      split; [lia |]. apply list_elem_of_filter. split.
      * by replace (Z.of_nat (Z.to_nat (x - 1)) + 1)%Z with x by lia.
      * apply elem_of_seq. lia.
Qed.

Lemma spawnList_slots_NoDup (items : list Z) (videos : list PlaylistEntry) :
  NoDup (slot <$> spawnList items 0 0 videos).
Proof.
  apply NoDup_alt. intros i j x Hi Hj.
  apply list_lookup_fmap_Some in Hi as (t1 & -> & H1).
  apply list_lookup_fmap_Some in Hj as (t2 & Heq & H2).
  apply spawnList_slot in H1, H2. simpl in *. lia.
Qed.

Lemma spawnList_slot_bound (items : list Z) (videos : list PlaylistEntry) (t : Task) :
  t ∈ spawnList items 0 0 videos → slot t < length items.
Proof.
  intros Ht. apply list_elem_of_lookup in Ht as [k Hk].
  pose proof (lookup_lt_Some _ _ _ Hk) as Hlt.
  apply spawnList_slot in Hk. rewrite spawnList_length in Hlt.
  pose proof (selected_le_items items (length videos)) as Hle.
  unfold selectedPositions in Hle. simpl in Hk. lia.
Qed.

(** *** Writes of goroutines that are done *)

Lemma length_slotWrite (url : string) (t : Task) (data : list (option Data)) :
  length (slotWrite env url t data) = length data.
Proof.
  unfold slotWrite. destruct (taskResult env url (entry t)); [| done].
  apply length_insert.
Qed.

Lemma length_foldr_slotWrite (url : string) (ts : list Task) (data : list (option Data)) :
  length (foldr (slotWrite env url) data ts) = length data.
Proof.
  induction ts as [|t ts IH]; simpl; [done |]. by rewrite length_slotWrite.
Qed.

Lemma taskBody_slotWrite (url : string) (t : Task) (data : list (option Data)) :
  slot t < length data →
  taskBody env url t data = Some (slotWrite env url t data).
Proof.
  intros Hlt. unfold taskBody, slotWrite, taskResult.
  destruct (VideoFromPlaylistEntry env (entry t)); [| done].
  by rewrite bool_decide_eq_true_2.
Qed.

Lemma slotWrite_other (url : string) (t : Task) (data : list (option Data)) (i : nat) :
  slot t ≠ i → slotWrite env url t data !! i = data !! i.
Proof.
  intros Hne. unfold slotWrite. destruct (taskResult env url (entry t)); [| done].
  by apply list_lookup_insert_ne.
Qed.

Lemma slotWrite_same (url : string) (t : Task) (data : list (option Data)) :
  data !! slot t = Some None →
  slotWrite env url t data !! slot t = Some (taskResult env url (entry t)).
Proof.
  intros Hd. unfold slotWrite.
  destruct (taskResult env url (entry t)) as [d|]; [| done].
  apply list_lookup_insert_eq. by eapply lookup_lt_Some.
Qed.

Lemma foldr_slotWrite_other (url : string) (ts : list Task)
    (data : list (option Data)) (i : nat) :
  (∀ t, t ∈ ts → slot t ≠ i) →
  foldr (slotWrite env url) data ts !! i = data !! i.
Proof.
  induction ts as [|t ts IH]; intros Hne; simpl; [done |].
  rewrite slotWrite_other by (apply Hne; by left).
  apply IH. intros t' Ht'. apply Hne. by right.
Qed.

Lemma foldr_slotWrite_same (url : string) (ts : list Task)
    (data : list (option Data)) (t : Task) :
  NoDup (slot <$> ts) → t ∈ ts → data !! slot t = Some None →
  foldr (slotWrite env url) data ts !! slot t
  = Some (taskResult env url (entry t)).
Proof.
  induction ts as [|t' ts IH]; intros Hnd Ht Hd; simpl.
  - by apply elem_of_nil in Ht.
  - rewrite fmap_cons in Hnd. apply NoDup_cons in Hnd as [Hnot Hnd].
    apply elem_of_cons in Ht as [-> | Ht].
    + apply slotWrite_same. rewrite foldr_slotWrite_other; [done |].
      intros t Ht Heq. apply Hnot. rewrite <- Heq.
      by apply list_elem_of_fmap_2.
    + rewrite slotWrite_other; [by apply IH |].
      intros Heq. apply Hnot. rewrite Heq. by apply list_elem_of_fmap_2.
Qed.

(** *** The invariant of the pool *)

Section Pool.

Variables (url : string) (size : Z) (tasks : list Task) (n : nat).
Hypothesis slots_in_range : ∀ t, t ∈ tasks → slot t < n.
Hypothesis slots_distinct : NoDup (slot <$> tasks).

Lemma poolInv_length (st : PoolState) :
  poolInv env url tasks n st → length (extractedData st) = n.
Proof.
  intros (_ & fin & _ & ->). by rewrite length_foldr_slotWrite, length_replicate.
Qed.

Lemma poolStep_inv (a : Action) (st st' : PoolState) :
  poolInv env url tasks n st → poolStep env url size a st = Some st' →
  poolInv env url tasks n st' ∧ poolMeasure st' < poolMeasure st.
Proof.
  intros Hinv. pose proof (poolInv_length st Hinv) as Hlen.
  destruct Hinv as (Hp & fin & Hperm & Hdata).
  unfold poolStep, poolMeasure. rewrite Hp. destruct a as [|k].
  - destruct (pending st) as [|t rest] eqn:Hpend; [done |].
    destruct (poolHasRoom size st); [| done]. intros [= <-]. simpl.
    split; [| rewrite length_app; simpl; lia].
    split; [done |]. exists fin. split; [| done]. simpl.
    by rewrite <- Hperm, <- app_assoc.
  - destruct (inflight st !! k) as [t|] eqn:Hk; [| done].
    assert (t ∈ tasks) as Ht.
    { rewrite <- Hperm. apply elem_of_app. right. apply elem_of_app. left.
      by eapply list_elem_of_lookup_2. }
    rewrite taskBody_slotWrite by (rewrite Hlen; by apply slots_in_range).
    intros [= <-]. simpl.
    pose proof (lookup_lt_Some _ _ _ Hk) as Hlt.
    split; [| rewrite length_delete by eauto; lia].
    split; [done |]. exists (t :: fin). simpl. split; [| by rewrite Hdata].
    rewrite <- Hperm.
    rewrite (delete_Permutation (inflight st) k t Hk) at 2.
    by rewrite Permutation_middle.
Qed.

Lemma poolRun_inv (sched : list Action) (st st' : PoolState) :
  poolInv env url tasks n st → poolRun env url size sched st = Some st' →
  poolInv env url tasks n st'
  ∧ length sched + poolMeasure st' ≤ poolMeasure st.
Proof.
  revert st; induction sched as [|a sched IH]; intros st Hinv; simpl.
  - intros [= <-]. split; [done | lia].
  - destruct (poolStep env url size a st) as [st1|] eqn:Hstep; [| done].
    destruct (poolStep_inv _ _ _ Hinv Hstep) as [Hinv1 Hm].
    intros Hrun. destruct (IH _ Hinv1 Hrun) as [Hinv' Hm']. split; [done | lia].
Qed.

Lemma poolRun_app (s1 s2 : list Action) (st : PoolState) :
  poolRun env url size (s1 ++ s2) st
  = match poolRun env url size s1 st with
    | Some st' => poolRun env url size s2 st'
    | None => None
    end.
Proof.
  revert st; induction s1 as [|a s1 IH]; intros st; simpl; [done |].
  destruct (poolStep env url size a st); [apply IH | done].
Qed.

(** While goroutines are left and the pool has a slot, a step is
    enabled: the pool does not block for ever. *)
Lemma pool_progress (st : PoolState) :
  (1 ≤ size)%Z → poolInv env url tasks n st → poolIdle st = false →
  ∃ a st', poolStep env url size a st = Some st'.
Proof.
  intros Hsize Hinv Hidle. pose proof (poolInv_length st Hinv) as Hlen.
  destruct Hinv as (Hp & fin & Hperm & Hdata).
  unfold poolStep. rewrite Hp.
  destruct (inflight st) as [|t ts] eqn:Hfl.
  - destruct (pending st) as [|t rest] eqn:Hpend.
    + unfold poolIdle in Hidle. rewrite Hfl, Hpend in Hidle.
      by rewrite bool_decide_eq_true_2 in Hidle.
    + exists Spawn. unfold poolHasRoom. rewrite Hfl. simpl.
      rewrite bool_decide_eq_true_2 by lia. by eexists.
  - exists (Finish 0). simpl.
    assert (t ∈ tasks) as Ht.
    { rewrite <- Hperm. apply elem_of_app. right. by left. }
    rewrite taskBody_slotWrite by (rewrite Hlen; by apply slots_in_range).
    by eexists.
Qed.

Lemma pool_completes (m : nat) (st : PoolState) :
  (1 ≤ size)%Z → poolMeasure st ≤ m → poolInv env url tasks n st →
  ∃ sched st',
    poolRun env url size sched st = Some st'
    ∧ poolIdle st' = true ∧ panicked st' = false.
Proof.
  intros Hsize. revert st; induction m as [|m IH]; intros st Hm Hinv.
  - exists [], st. split; [done |]. split; [| by destruct Hinv].
    unfold poolMeasure in Hm. unfold poolIdle. apply bool_decide_eq_true_2.
    split; apply length_zero_iff_nil; lia.
  - destruct (poolIdle st) eqn:Hidle.
    + exists [], st. split; [done |]. split; [done | by destruct Hinv].
    + destruct (pool_progress st Hsize Hinv Hidle) as (a & st1 & Hstep).
      destruct (poolStep_inv _ _ _ Hinv Hstep) as [Hinv1 Hlt].
      destruct (IH st1) as (sched & st' & Hrun & Hfin); [lia | done |].
      exists (a :: sched), st'. simpl. by rewrite Hstep.
Qed.

(** What the slice holds when every goroutine is done. *)
Lemma pool_final (st : PoolState) :
  poolInv env url tasks n st → poolIdle st = true →
  length (extractedData st) = n
  ∧ (∀ t, t ∈ tasks →
          extractedData st !! slot t = Some (taskResult env url (entry t)))
  ∧ (∀ i, i < n → (∀ t, t ∈ tasks → slot t ≠ i) →
          extractedData st !! i = Some None).
Proof.
  intros Hinv Hidle. pose proof (poolInv_length st Hinv) as Hlen.
  destruct Hinv as (Hp & fin & Hperm & Hdata).
  apply bool_decide_eq_true_1 in Hidle as [Hpend Hfl].
  rewrite Hpend, Hfl, !app_nil_r in Hperm.
  split; [done |]. rewrite Hdata. split.
  - intros t Ht. apply foldr_slotWrite_same.
    + by rewrite Hperm.
    + by rewrite Hperm.
    + apply lookup_replicate_2. by apply slots_in_range.
  - intros i Hi Hnone. rewrite foldr_slotWrite_other.
    + by apply lookup_replicate_2.
    + intros t Ht. apply Hnone. by rewrite <- Hperm.
Qed.

End Pool.

(** *** [Extract] *)

Lemma playlistStart_inv (url : string) (items : list Z) (pl : Playlist) :
  poolInv env url (spawnList items 0 0 (Videos pl)) (length items)
    (playlistStart items pl).
Proof.
  split; [done |]. by exists [].
Qed.

Lemma Extract_playlist_run (sched : list Action) (url : string) (opts : Options)
    (pl : Playlist) (o : Outcome) :
  OptPlaylist opts = true → GetPlaylist env url = Ok pl →
  Extract env sched url opts = Some o →
  ∃ st,
    poolRun env url (ThreadNumber opts) sched
      (playlistStart (needDownloadItems env opts pl) pl) = Some st
    ∧ poolInv env url (spawnList (needDownloadItems env opts pl) 0 0 (Videos pl))
        (length (needDownloadItems env opts pl)) st
    ∧ poolIdle st = true
    ∧ o = Returns (Some (extractedData st)) None.
Proof.
  intros Hmode Hpl. unfold Extract. rewrite Hmode, Hpl. simpl.
  destruct (poolRun env url (ThreadNumber opts) sched _) as [st|] eqn:Hrun;
    [| done].
  destruct (poolRun_inv url (ThreadNumber opts) _ _
              (spawnList_slot_bound _ _) sched _ st
              (playlistStart_inv url _ pl) Hrun) as [Hinv _].
  destruct Hinv as [Hp Hinv]. rewrite Hp.
  destruct (poolIdle st) eqn:Hidle; [| done].
  intros [= <-]. exists st. by repeat split.
Qed.

Lemma Extract_playlist_slots (sched : list Action) (url : string) (opts : Options)
    (pl : Playlist) (o : Outcome) :
  OptPlaylist opts = true → GetPlaylist env url = Ok pl →
  Extract env sched url opts = Some o →
  ∃ out,
    o = Returns (Some out) None
    ∧ length out = length (needDownloadItems env opts pl)
    ∧ (∀ i p,
         selectedPositions (needDownloadItems env opts pl) (length (Videos pl)) !! i
         = Some p →
         ∃ e, Videos pl !! p = Some e ∧ out !! i = Some (taskResult env url e))
    ∧ (∀ i,
         length (selectedPositions (needDownloadItems env opts pl)
                   (length (Videos pl))) ≤ i →
         i < length (needDownloadItems env opts pl) →
         out !! i = Some None).
Proof.
  intros Hmode Hpl Hex.
  destruct (Extract_playlist_run _ _ _ _ _ Hmode Hpl Hex)
    as (st & _ & Hinv & Hidle & ->).
  destruct (pool_final url _ _ (spawnList_slot_bound _ _)
              (spawnList_slots_NoDup _ _) st Hinv Hidle)
    as (Hlen & Hdone & Hrest).
  exists (extractedData st). split; [done |]. split; [done |]. split.
  - intros i p Hi.
    destruct (spawnList_entry _ _ 0 0 _ _ Hi) as (e & He & Ht).
    rewrite Nat.sub_0_r in He. exists e. split; [done |].
    apply list_elem_of_lookup_2 in Ht. by apply Hdone in Ht.
  - intros i Hge Hlt. apply Hrest; [done |]. intros t Ht Heq.
    apply list_elem_of_lookup in Ht as [k Hk].
    pose proof (lookup_lt_Some _ _ _ Hk) as Hklt.
    apply spawnList_slot in Hk. rewrite spawnList_length in Hklt.
    unfold selectedPositions in Hge. simpl in Hk. lia.
Qed.

(** C2.  In playlist mode, whatever the schedule of the goroutines: the
    returned slice has one slot per selected index; slot [i] holds the
    result for the [i]-th selected position of the playlist, in playlist
    order; when the selected indices are distinct positions of the
    playlist, these are all the slots; and any other schedule returns
    the same slice. *)
Theorem playlist_order (sched : list Action) (url : string) (opts : Options)
    (pl : Playlist) (out : list (option Data)) :
  OptPlaylist opts = true → GetPlaylist env url = Ok pl →
  Extract env sched url opts = Some (Returns (Some out) None) →
  length out = length (needDownloadItems env opts pl)
  ∧ (∀ i p,
       selectedPositions (needDownloadItems env opts pl) (length (Videos pl)) !! i
       = Some p →
       ∃ e, Videos pl !! p = Some e ∧ out !! i = Some (taskResult env url e))
  ∧ (NoDup (needDownloadItems env opts pl) →
     (∀ x, x ∈ needDownloadItems env opts pl →
           (1 ≤ x ≤ Z.of_nat (length (Videos pl)))%Z) →
     length (selectedPositions (needDownloadItems env opts pl)
               (length (Videos pl))) = length out)
  ∧ (∀ sched' out',
       Extract env sched' url opts = Some (Returns (Some out') None) →
       out' = out).
Proof.
  intros Hmode Hpl Hex.
  destruct (Extract_playlist_slots _ _ _ _ _ Hmode Hpl Hex)
    as (out0 & [= <-] & Hlen & Hsel & Hrest).
  split; [done |]. split; [done |]. split.
  - intros Hnd Hrange. rewrite Hlen. by apply selected_all_items.
  - intros sched' out' Hex'.
    destruct (Extract_playlist_slots _ _ _ _ _ Hmode Hpl Hex')
      as (out1 & [= <-] & Hlen' & Hsel' & Hrest').
    apply list_eq. intros i.
    destruct (selectedPositions (needDownloadItems env opts pl)
                (length (Videos pl)) !! i) as [p|] eqn:Hi.
    + destruct (Hsel i p Hi) as (e & He & ->).
      destruct (Hsel' i p Hi) as (e' & He' & ->). congruence.
    + apply lookup_ge_None in Hi.
      destruct (decide (i < length (needDownloadItems env opts pl))) as [Hlt|Hge].
      * by rewrite Hrest, Hrest'.
      * rewrite !lookup_ge_None_2 by lia. done.
Qed.

(** C5, as the code has it.  A single-URL call returns the error of
    [GetVideo], wrapped, and no result when the video cannot be looked
    up; otherwise it returns exactly one result and no error, and that
    result is failure-shaped when the resolution of the formats
    failed. *)
Theorem single_url_outcome (sched : list Action) (url : string) (opts : Options) :
  OptPlaylist opts = false →
  (∀ err, GetVideo env url = Err err →
          Extract env sched url opts = Some (Returns None (Some (WithStack err))))
  ∧ (∀ v, GetVideo env url = Ok v →
          Extract env sched url opts
          = Some (Returns (Some [Some (youtubeDownload env url v)]) None)
          ∧ ∀ cause, DataErr (youtubeDownload env url v) = Some cause →
                     youtubeDownload env url v = EmptyData url cause).
Proof.
  intros Hmode. unfold Extract. rewrite Hmode. simpl. split.
  - by intros err ->.
  - intros v ->. split; [done |]. intros cause.
    rewrite youtubeDownload_spec.
    destruct (spec_catalogue env v (Formats v) ∅); simpl; [done |].
    by intros [= ->].
Qed.

(** C7.  In playlist mode, whatever the schedule: the slot of a selected
    entry that does not resolve is left nil, and the slot of every other
    selected entry holds what that entry's own goroutine computes. *)
Theorem failed_entry_slot_unpopulated (sched : list Action) (url : string)
    (opts : Options) (pl : Playlist) (out : list (option Data))
    (i p : nat) (e : PlaylistEntry) (err : error) :
  OptPlaylist opts = true → GetPlaylist env url = Ok pl →
  Extract env sched url opts = Some (Returns (Some out) None) →
  selectedPositions (needDownloadItems env opts pl) (length (Videos pl)) !! i
  = Some p →
  Videos pl !! p = Some e →
  VideoFromPlaylistEntry env e = Err err →
  out !! i = Some None
  ∧ ∀ j q e',
      j ≠ i →
      selectedPositions (needDownloadItems env opts pl) (length (Videos pl)) !! j
      = Some q →
      Videos pl !! q = Some e' →
      (∀ v, VideoFromPlaylistEntry env e' = Ok v →
            out !! j = Some (Some (youtubeDownload env url v)))
      ∧ (∀ err', VideoFromPlaylistEntry env e' = Err err' →
                 out !! j = Some None).
Proof.
  intros Hmode Hpl Hex Hi He Herr.
  destruct (Extract_playlist_slots _ _ _ _ _ Hmode Hpl Hex)
    as (out' & [= <-] & _ & Hsel & _).
  split.
  - destruct (Hsel i p Hi) as (e0 & He0 & ->).
    assert (e0 = e) as -> by congruence.
    unfold taskResult. by rewrite Herr.
  - intros j q e' _ Hj He'. destruct (Hsel j q Hj) as (e0 & He0 & ->).
    assert (e0 = e') as -> by congruence.
    unfold taskResult. split.
    + by intros v ->.
    + by intros err' ->.
Qed.

(** C10.  In playlist mode with a resolved playlist, every complete run
    of [Extract] returns a non-nil slice, one slot per selected index,
    and a nil error: no goroutine panics and no failure of an entry
    reaches the error; when every selected entry fails all slots are
    nil.  With a
    pool of at least one slot every run can be completed, in at most two
    steps per goroutine: the call does return. *)
Theorem playlist_always_returns (url : string) (opts : Options) (pl : Playlist) :
  OptPlaylist opts = true → GetPlaylist env url = Ok pl →
  (∀ sched o,
     Extract env sched url opts = Some o →
     ∃ out,
       o = Returns (Some out) None
       ∧ length out = length (needDownloadItems env opts pl)
       ∧ ((∀ i p e,
             selectedPositions (needDownloadItems env opts pl)
               (length (Videos pl)) !! i = Some p →
             Videos pl !! p = Some e →
             ∃ err, VideoFromPlaylistEntry env e = Err err) →
          out = replicate (length (needDownloadItems env opts pl)) None))
  ∧ ((1 ≤ ThreadNumber opts)%Z →
     ∀ sched st,
       poolRun env url (ThreadNumber opts) sched
         (playlistStart (needDownloadItems env opts pl) pl) = Some st →
       length sched ≤ 2 * length (Videos pl)
       ∧ ∃ sched' out,
           Extract env (sched ++ sched') url opts
           = Some (Returns (Some out) None)).
Proof.
  intros Hmode Hpl. split.
  - intros sched o Hex.
    destruct (Extract_playlist_slots _ _ _ _ _ Hmode Hpl Hex)
      as (out & -> & Hlen & Hsel & Hrest).
    exists out. split; [done |]. split; [done |]. intros Hfail.
    apply list_eq. intros i.
    destruct (decide (i < length (needDownloadItems env opts pl))) as [Hlt|Hge].
    + rewrite lookup_replicate_2 by done.
      destruct (selectedPositions (needDownloadItems env opts pl)
                  (length (Videos pl)) !! i) as [p|] eqn:Hi.
      * destruct (Hsel i p Hi) as (e & He & ->).
        destruct (Hfail i p e Hi He) as [err Herr].
        unfold taskResult. by rewrite Herr.
      * apply Hrest; [| done]. by apply lookup_ge_None.
    + rewrite lookup_ge_None_2 by lia. symmetry.
      apply lookup_ge_None_2. rewrite length_replicate. lia.
  - intros Hsize sched st Hrun.
    destruct (poolRun_inv url (ThreadNumber opts) _ _
                (spawnList_slot_bound _ _) sched _ st
                (playlistStart_inv url _ pl) Hrun) as [Hinv Hm].
    split.
    + unfold poolMeasure in Hm at 2. simpl in Hm.
      rewrite spawnList_length in Hm.
      pose proof (length_filter
        (λ i, (Z.of_nat i + 1)%Z ∈ needDownloadItems env opts pl)
        (seq 0 (length (Videos pl)))) as Hf.
      rewrite length_seq in Hf. lia.
    + destruct (pool_completes url (ThreadNumber opts) _ _
                  (spawnList_slot_bound _ _) (poolMeasure st) st Hsize
                  (Nat.le_refl _) Hinv) as (sched' & st' & Hrun' & Hidle & Hp).
      exists sched', (extractedData st'). unfold Extract.
      rewrite Hmode, Hpl. simpl.
      by rewrite poolRun_app, Hrun, Hrun', Hp, Hidle.
Qed.

End Playlist.

(** ** Concrete runs on the test double *)

Module Witness.
Import Fixture.

Ltac compute_eq := vm_compute; reflexivity.
Ltac decide_it := apply (bool_decide_unpack _); vm_compute; exact I.

(** C1 as stated fails: the stream of a format with two audio channels
    has the flag set, so the flag does not tell video-only formats from
    the others. *)
Lemma NeedMux_with_audio_counterexample :
  AudioChannels muxed18 = 2%Z
  ∧ Streams (youtubeDownload env "u" (video [muxed18])) !! "18" = Some stream18
  ∧ NeedMux stream18 = true
  ∧ ¬ (NeedMux stream18 = true ↔ AudioChannels muxed18 = 0%Z).
Proof.
  split; [reflexivity |]. split; [compute_eq |]. split; [reflexivity |].
  intros [H _]. specialize (H eq_refl). discriminate H.
Qed.

Lemma NeedMux_always_set_witness :
  Streams (youtubeDownload env "u" (video webm3)) !! "248" = Some stream1080
  ∧ NeedMux stream1080 = true
  ∧ ∃ f, f ∈ Formats (video webm3) ∧ "248" = Itoa (ItagNo f)
         ∧ ID stream1080 = "248".
Proof.
  split; [compute_eq |].
  apply (NeedMux_always_set env "u" (video webm3) "248" stream1080).
  compute_eq.
Defined.

Lemma playlist_order_witness :
  Extract env sched257 "pl" (playlistOpts "2,5,7" 2)
  = Some (Returns (Some out257) None)
  ∧ length out257 = 3
  ∧ (∃ e, Videos pl8 !! 6 = Some e ∧ out257 !! 2 = Some (taskResult env "pl" e))
  ∧ length (selectedPositions (needDownloadItems env (playlistOpts "2,5,7" 2) pl8)
              (length (Videos pl8))) = length out257
  ∧ Extract env sequential257 "pl" (playlistOpts "2,5,7" 1)
    = Some (Returns (Some out257) None).
Proof.
  split; [compute_eq |].
  destruct (playlist_order env sched257 "pl" (playlistOpts "2,5,7" 2) pl8 out257)
    as (Hlen & Hsel & Hall & _); [reflexivity | reflexivity | compute_eq |].
  split; [exact Hlen |]. split; [| split].
  - apply (Hsel 2 6). compute_eq.
  - apply Hall.
    + decide_it.
    + apply Forall_forall. decide_it.
  - compute_eq.
Defined.

Lemma audio_resolved_once_witness :
  countCalls (isLookup "webm") (youtubeDownload_calls env "u" (video webm3)) ≤ 1
  ∧ countCalls (isAudioPart "webm") (youtubeDownload_calls env "u" (video webm3)) ≤ 1
  ∧ servedBy env (video webm3) (youtubeDownload_calls env "u" (video webm3))
      "webm" (partOf opus "webm").
Proof.
  destruct (audio_resolved_once env "u" (video webm3)) as [Hcount Hserved].
  split; [apply Hcount |]. split; [apply Hcount |].
  apply (Hserved "248" stream1080 (partOf opus "webm")); compute_eq.
Defined.

Lemma youtubeDownload_aborts_witness :
  (∃ cause,
     youtubeDownload env "u" (video broken) = EmptyData "u" cause
     ∧ Streams (youtubeDownload env "u" (video broken)) = ∅)
  ∧ (∃ cause,
       youtubeDownload env "u" (video silent) = EmptyData "u" cause
       ∧ Streams (youtubeDownload env "u" (video silent)) = ∅).
Proof.
  split.
  - destruct (youtubeDownload_aborts env "u" (video broken))
      as (cause & H1 & _ & _ & H2 & _).
    + left. exists (fmt 666 "video/mp4; codecs=avc1" "720p" 2), (Upstream "cipher").
      split; [decide_it | reflexivity].
    + by exists cause.
  - destruct (youtubeDownload_aborts env "u" (video silent))
      as (cause & H1 & _ & _ & H2 & _).
    + right. exists vp9_720. split; [decide_it |]. split; [reflexivity | compute_eq].
    + by exists cause.
Defined.

(** C5 as stated fails: when the video cannot be looked up, a single-URL
    call returns no result and the error. *)
Lemma single_url_failure_propagates :
  OptPlaylist singleOpts = false
  ∧ Extract env [] "gone" singleOpts
    = Some (Returns None (Some (WithStack (Upstream "video unavailable"))))
  ∧ ¬ ∃ cause, Extract env [] "gone" singleOpts
               = Some (Returns (Some [Some (EmptyData "gone" cause)]) None).
Proof.
  split; [reflexivity |]. split; [reflexivity |].
  intros [cause H]. discriminate H.
Qed.

Lemma single_url_outcome_witness :
  Extract env [] "gone" singleOpts
  = Some (Returns None (Some (WithStack (Upstream "video unavailable"))))
  ∧ Extract env [] "u" singleOpts
    = Some (Returns (Some [Some (youtubeDownload env "u"
                                   {| VideoID := "u"; Title := "title";
                                      Formats := [muxed18] |})]) None).
Proof.
  destruct (single_url_outcome env [] "gone" singleOpts eq_refl) as [Herr _].
  destruct (single_url_outcome env [] "u" singleOpts eq_refl) as [_ Hok].
  split.
  - apply Herr. reflexivity.
  - apply Hok. reflexivity.
Defined.

Lemma stream_parts_witness :
  DataErr (youtubeDownload env "u" (video webm3)) = None
  ∧ (∃ s, Streams (youtubeDownload env "u" (video webm3)) !! Itoa (ItagNo vp9_1080)
          = Some s
          ∧ hasPartsOf env (video webm3) vp9_1080 s)
  ∧ (∃ f, f ∈ Formats (video webm3) ∧ "248" = Itoa (ItagNo f)
          ∧ hasPartsOf env (video webm3) f stream1080).
Proof.
  split; [compute_eq |].
  destruct (stream_parts env "u" (video webm3)) as [Hlast Hall]; [compute_eq |].
  split.
  - apply (Hlast [vp9_720] vp9_1080 [vp9_1440; opus; mp4a]); [reflexivity |].
    apply Forall_forall. decide_it.
  - apply Hall. compute_eq.
Defined.

Lemma failed_entry_slot_unpopulated_witness :
  VideoFromPlaylistEntry env (entryOf "gone") = Err (Upstream "entry unavailable")
  ∧ out257 !! 1 = Some None
  ∧ ((∀ v, VideoFromPlaylistEntry env (entryOf "e7") = Ok v →
           out257 !! 2 = Some (Some (youtubeDownload env "pl" v)))
     ∧ (∀ err', VideoFromPlaylistEntry env (entryOf "e7") = Err err' →
                out257 !! 2 = Some None)).
Proof.
  split; [reflexivity |].
  destruct (failed_entry_slot_unpopulated env sched257 "pl"
              (playlistOpts "2,5,7" 2) pl8 out257 1 4 (entryOf "gone")
              (Upstream "entry unavailable")) as [Hnil Hothers];
    [reflexivity | reflexivity | compute_eq | compute_eq | reflexivity
    | reflexivity |].
  split; [exact Hnil |].
  apply (Hothers 2 6 (entryOf "e7")); [lia | compute_eq | reflexivity].
Defined.

Lemma duplicate_tags_last_wins_witness :
  DataErr (youtubeDownload env "u" (video dup18)) = None
  ∧ dom (Streams (youtubeDownload env "u" (video dup18)))
    = list_to_set ((λ f, Itoa (ItagNo f)) <$> Formats (video dup18))
  ∧ ∃ s, Streams (youtubeDownload env "u" (video dup18)) !! "18" = Some s
         ∧ ID s = "18"
         ∧ Quality s = "480p video/webm; codecs=vp8"
         ∧ Ext s = "webm"
         ∧ hasPartsOf env (video dup18) (fmt 18 "video/webm; codecs=vp8" "480p" 2) s.
Proof.
  destruct (duplicate_tags_last_wins env "u" (video dup18))
    as (Hok & Hdom & Hlast).
  - apply Forall_forall. repeat constructor; by eexists.
  - apply (proj1 (Forall_forall
               (λ f, AudioChannels f = 0%Z →
                     audioFormats (video dup18) (getStreamExt (MimeType f)) ≠ [])
               dup18)).
    repeat constructor; discriminate.
  - split; [exact Hok |]. split; [exact Hdom |].
    apply (Hlast [muxed18; fmt 22 "video/mp4; codecs=avc1" "720p" 2]
             (fmt 18 "video/webm; codecs=vp8" "480p" 2) []); [reflexivity |].
    apply Forall_forall. constructor.
Defined.

Lemma playlist_always_returns_witness :
  (∃ out, Returns (Some out257) None = Returns (Some out) None
          ∧ length out = length (needDownloadItems env (playlistOpts "2,5,7" 2) pl8))
  ∧ (length [Spawn; Spawn] ≤ 2 * length (Videos pl8)
     ∧ ∃ sched' out,
         Extract env ([Spawn; Spawn] ++ sched') "pl" (playlistOpts "2,5,7" 2)
         = Some (Returns (Some out) None))
  ∧ (∃ out, Returns (Some (replicate 8 None)) None = Returns (Some out) None
            ∧ length out = length (needDownloadItems env (playlistOpts "" 1) plGone)
            ∧ out = replicate
                      (length (needDownloadItems env (playlistOpts "" 1) plGone))
                      None).
Proof.
  destruct (playlist_always_returns env "pl" (playlistOpts "2,5,7" 2) pl8
              eq_refl eq_refl) as [Hret Hrun].
  destruct (playlist_always_returns env "allgone" (playlistOpts "" 1) plGone
              eq_refl eq_refl) as [Hgone _].
  split; [| split].
  - destruct (Hret sched257 (Returns (Some out257) None))
      as (out & Heq & Hlen & _); [compute_eq |].
    exists out. split; [exact Heq | exact Hlen].
  - eapply (Hrun ltac:(simpl; lia) [Spawn; Spawn]). compute_eq.
  - destruct (Hgone sequential257 (Returns (Some (replicate 8 None)) None))
      as (out & Heq & Hlen & Hall); [compute_eq |].
    exists out. split; [exact Heq |]. split; [exact Hlen |].
    apply Hall. intros i p e _ He. apply list_elem_of_lookup_2 in He.
    revert e He. apply Forall_forall. repeat constructor; by eexists.
Defined.

(** The example of the spec: three video-only webm formats, one webm and
    one mp4 audio format; the audio format is looked up and resolved
    once, for webm. *)
Example webm3_trace :
  countCalls (isLookup "webm") (youtubeDownload_calls env "u" (video webm3)) = 1
  ∧ countCalls (isAudioPart "webm") (youtubeDownload_calls env "u" (video webm3)) = 1
  ∧ countCalls (isLookup "mp4") (youtubeDownload_calls env "u" (video webm3)) = 0
  ∧ countCalls (isAudioPart "mp4") (youtubeDownload_calls env "u" (video webm3)) = 0.
Proof. vm_compute. done. Qed.

End Witness.

(** ** More about one video *)

Section MoreResolution.

Variable env : Env.

Lemma Contains_empty (s : string) : Str.Contains s "" = true.
Proof. by destruct s. Qed.

Lemma string_app_assoc (a b c : string) : (a +:+ b) +:+ c = a +:+ (b +:+ c).
Proof.
  induction a as [|x a IH]; [done |].
  by rewrite !PatternFacts.append_cons, IH.
Qed.

Lemma spec_stream_resolvable (v : Video) (f : Format) :
  (∃ s, spec_stream env v f = Ok s) ↔ resolvable env v f.
Proof.
  split.
  - intros [s Hs].
    apply spec_stream_Ok in Hs as (part & Hp & _ & _ & _ & _ & Hparts).
    apply genPartByFormat_Ok in Hp as [Hu Hext]. split; [by eexists |].
    intros Hz. destruct Hparts as [(_ & a & ap & Ha & Hap & _) | [Hnz _]];
      [| done].
    apply genPartByFormat_Ok in Hap as [Hau _]. rewrite Hext in Ha.
    by exists a, (URL ap).
  - intros [[u Hu] Haudio].
    unfold spec_stream, spec_audioPart, genPartByFormat. rewrite Hu. simpl.
    case_bool_decide as Hz; [| by eexists].
    destruct (Haudio Hz) as (a & u' & Ha & Hu'). rewrite Ha, Hu'. by eexists.
Qed.


(** X2.  [getVideoAudio] finds a format exactly when some format of the
    video has a mime type that contains both the extension and the word
    audio; what it returns is such a format of the video, and its only
    error is the one of line 228.  With the empty extension every
    format with audio in its mime type qualifies. *)
Theorem getVideoAudio_finds_iff (v : Video) (ext : string) :
  ((∃ a, getVideoAudio env v ext = Ok a) ↔
   ∃ g, g ∈ Formats v ∧ Str.Contains (MimeType g) ext = true
        ∧ Str.Contains (MimeType g) "audio" = true)
  ∧ (∀ a, getVideoAudio env v ext = Ok a →
          a ∈ Formats v ∧ Str.Contains (MimeType a) ext = true
          ∧ Str.Contains (MimeType a) "audio" = true)
  ∧ (∀ e, getVideoAudio env v ext = Err e →
          e = New "no audio format found after filtering")
  ∧ ((∃ a, getVideoAudio env v "" = Ok a) ↔
     ∃ g, g ∈ Formats v ∧ Str.Contains (MimeType g) "audio" = true).
Proof.
  assert (∀ x, (∃ a, getVideoAudio env v x = Ok a) ↔
               ∃ g, g ∈ audioFormats v x) as Hiff.
  { intros x. split.
    - intros [a Ha]. exists a. by apply (getVideoAudio_Ok env).
    - intros [g Hg]. apply getVideoAudio_found. intros Hnil.
      rewrite Hnil in Hg. by apply elem_of_nil in Hg. }
  split; [| split; [| split]].
  - rewrite Hiff. by setoid_rewrite audioFormats_elem.
  - intros a Ha. by apply audioFormats_elem, (getVideoAudio_Ok env).
  - intros e He. by apply getVideoAudio_Err in He as [-> _].
  - rewrite Hiff. setoid_rewrite audioFormats_elem.
    split; intros (g & Hg & H); exists g.
    + by destruct H.
    + by rewrite Contains_empty.
Qed.

(** X3.  The extension [getStreamExt] derives is made of the characters
    0-9, A-Z, a-z and _ only, and when it is not empty the mime type
    contains it between a slash and a semicolon. *)
Theorem getStreamExt_word_chars (s : string) :
  Str.all_word (getStreamExt s) = true
  ∧ (getStreamExt s ≠ "" →
     Str.Contains s ("/" +:+ getStreamExt s +:+ ";") = true).
Proof.
  unfold getStreamExt.
  destruct (Pattern.MatchOneOf s) as [m|] eqn:Hm; [| done].
  apply PatternFacts.MatchOneOf_sound in Hm
    as (pre & ty & sub & post & -> & (Hs & _ & _ & _ & Hw) & _).
  simpl. split; [done |]. intros _. rewrite Hs.
  replace (pre +:+ ty +:+ "/" +:+ sub +:+ ";" +:+ post)
    with ((pre +:+ ty) +:+ ("/" +:+ sub +:+ ";") +:+ post).
  - apply Contains_app.
  - by rewrite !string_app_assoc.
Qed.

(** X4.  [youtubeDownload] returns a result without error exactly when
    every format of the video is resolvable: its URL resolves and, for a
    video-only format, an audio format is found for its extension and
    that one's URL resolves.  The size probe has no say. *)
Theorem youtubeDownload_succeeds_iff (url : string) (v : Video) :
  DataErr (youtubeDownload env url v) = None ↔
  ∀ f, f ∈ Formats v → resolvable env v f.
Proof.
  rewrite youtubeDownload_spec. split.
  - destruct (spec_catalogue env v (Formats v) ∅) as [m|e] eqn:Hc; [| done].
    intros _ f Hf. apply spec_stream_resolvable.
    by eapply spec_catalogue_Ok_all.
  - intros Hall.
    destruct (spec_catalogue_total env v (Formats v) ∅) as [m ->]; [| done].
    intros f Hf. by apply spec_stream_resolvable, Hall.
Qed.

Lemma spec_catalogue_first_error (v : Video) (l1 l2 : list Format) (f : Format)
    m0 (cause : error) :
  (∀ g, g ∈ l1 → resolvable env v g) →
  spec_stream env v f = Err cause →
  spec_catalogue env v (l1 ++ f :: l2) m0 = Err cause.
Proof.
  revert m0; induction l1 as [|g l1 IH]; intros m0 Hall Hf; simpl.
  - by rewrite Hf.
  - destruct (proj2 (spec_stream_resolvable v g)) as [s ->];
      [apply Hall; by left |].
    apply IH; [| done]. intros h Hh. apply Hall. by right.
Qed.

(** X5.  The cause [youtubeDownload] reports is that of the first format
    of the list that cannot be resolved, whatever follows it: the
    wrapped error of its URL, or the error of line 228 when it is
    video-only and no audio format matches, or the wrapped error of the
    URL of the audio format found for it. *)
Theorem youtubeDownload_first_failure (url : string) (v : Video)
    (l1 l2 : list Format) (f : Format) :
  Formats v = l1 ++ f :: l2 →
  (∀ g, g ∈ l1 → resolvable env v g) →
  (∀ e, GetStreamURL env v f = Err e →
        youtubeDownload env url v = EmptyData url (WithStack e))
  ∧ (∀ u, GetStreamURL env v f = Ok u → AudioChannels f = 0%Z →
          (audioFormats v (getStreamExt (MimeType f)) = [] →
           youtubeDownload env url v
           = EmptyData url (New "no audio format found after filtering"))
          ∧ (∀ a e,
               getVideoAudio env v (getStreamExt (MimeType f)) = Ok a →
               GetStreamURL env v a = Err e →
               youtubeDownload env url v = EmptyData url (WithStack e))).
Proof.
  intros Hfs Hall.
  assert (∀ cause, spec_stream env v f = Err cause →
                   youtubeDownload env url v = EmptyData url cause) as Hfail.
  { intros cause Hc. apply youtubeDownload_failed. rewrite Hfs.
    by apply spec_catalogue_first_error. }
  split.
  - intros e He. apply Hfail. unfold spec_stream, genPartByFormat. by rewrite He.
  - intros u Hu Hz. split.
    + intros Hnone. apply Hfail.
      unfold spec_stream, spec_audioPart, genPartByFormat, getVideoAudio.
      rewrite Hu. simpl. rewrite bool_decide_eq_true_2 by done. by rewrite Hnone.
    + intros a e Ha He. apply Hfail.
      unfold spec_stream, spec_audioPart, genPartByFormat.
      rewrite Hu. simpl. rewrite bool_decide_eq_true_2 by done.
      by rewrite Ha, He.
Qed.

(** X6.  A video without formats gives a result without error and
    without streams.  A result without error carries the URL asked for,
    the site, the title of the video and the kind video; the keys of its
    stream map are the decimal tags of the formats; and every stream is
    filed under its own ID, has one or two parts, and has the extension
    of its first part. *)
Theorem youtubeDownload_result_shape (url : string) (v : Video) :
  (Formats v = [] →
   DataErr (youtubeDownload env url v) = None
   ∧ Streams (youtubeDownload env url v) = ∅)
  ∧ (DataErr (youtubeDownload env url v) = None →
     DataURL (youtubeDownload env url v) = url
     ∧ Site (youtubeDownload env url v) = "YouTube youtube.com"
     ∧ DataTitle (youtubeDownload env url v) = Title v
     ∧ Type_ (youtubeDownload env url v) = "video"
     ∧ dom (Streams (youtubeDownload env url v))
       = list_to_set ((λ f, Itoa (ItagNo f)) <$> Formats v)
     ∧ ∀ id s,
         Streams (youtubeDownload env url v) !! id = Some s →
         ID s = id
         ∧ ∃ p rest, Parts s = p :: rest ∧ Ext s = PartExt p ∧ length rest ≤ 1).
Proof.
  split.
  - intros Hnil. rewrite youtubeDownload_spec, Hnil. done.
  - intros Hok. split; [| split; [| split; [| split; [| split]]]].
    1-5: revert Hok; rewrite youtubeDownload_spec;
      destruct (spec_catalogue env v (Formats v) ∅) as [m|e] eqn:Hc;
      [intros _; simpl | done].
    1-4: done.
    + by rewrite (spec_catalogue_dom _ _ _ _ _ Hc), dom_empty_L, (left_id_L ∅ (∪)).
    + intros id s Hs.
      apply youtubeDownload_stream in Hs as (f & _ & -> & Hf).
      apply spec_stream_Ok in Hf
        as (part & _ & Hid & _ & Hext & _ & [(_ & a & ap & _ & _ & Hp) | (_ & Hp)]).
      * split; [done |]. exists part, [ap]. by rewrite Hp.
      * split; [done |]. exists part, []. rewrite Hp. simpl. split; [done |].
        split; [done | lia].
Qed.

(** *** More about the trace *)

Lemma primaryCalls_app (l1 l2 : list Call) :
  primaryCalls (l1 ++ l2) = primaryCalls l1 ++ primaryCalls l2.
Proof. apply omap_app. Qed.

Ltac run_body :=
  unfold loopBody, mbind, M_bind, call, mret, M_ret;
  repeat match goal with
    | |- context [genPartByFormat ?e ?v ?f] =>
        let H := fresh "Hpart" in
        destruct (genPartByFormat e v f) eqn:H; simpl
    | |- context [bool_decide (AudioChannels ?f = 0%Z)] =>
        let H := fresh "Hz" in
        destruct (bool_decide_reflect (AudioChannels f = 0%Z)) as [H|H]; simpl
    | |- context [?c !! PartExt ?p] =>
        let H := fresh "Hcache" in
        destruct (c !! PartExt p) eqn:H; simpl
    | |- context [getVideoAudio ?e ?v ?x] =>
        let H := fresh "Haudio" in
        destruct (getVideoAudio e v x) eqn:H; simpl
    end.

Lemma loopBody_primary (v : Video) (f : Format) (st : LoopState) log :
  primaryCalls (loopBody env v f st log).1 = primaryCalls log ++ [f].
Proof.
  destruct st as [streams cache]. run_body;
    rewrite ?primaryCalls_app; simpl; by rewrite ?app_nil_r.
Qed.

Lemma forFormats_primary (v : Video) (fs : list Format) streams cache log :
  cacheOK env v cache →
  match forFormats env v fs (streams, cache) log with
  | (log', Ok _) => primaryCalls log' = primaryCalls log ++ fs
  | (log', Err _) =>
      ∃ l1 f l2,
        fs = l1 ++ f :: l2
        ∧ primaryCalls log' = primaryCalls log ++ l1 ++ [f]
        ∧ (∀ g, g ∈ l1 → resolvable env v g)
        ∧ ¬ resolvable env v f
  end.
Proof.
  revert streams cache log; induction fs as [|f fs IH];
    intros streams cache log Hc.
  - simpl. by rewrite app_nil_r.
  - rewrite forFormats_cons.
    pose proof (loopBody_spec env v f streams cache log Hc) as Hb.
    pose proof (loopBody_primary v f (streams, cache) log) as Hp.
    destruct (loopBody env v f (streams, cache) log) as [log1 [[m c]|e]];
      simpl in Hb, Hp.
    + destruct Hb as (s & Hs & _ & Hc').
      specialize (IH m c log1 Hc').
      destruct (forFormats env v fs (m, c) log1) as [log' [st'|e]].
      * by rewrite IH, Hp, <- app_assoc.
      * destruct IH as (l1 & g & l2 & -> & Hlog & Hl1 & Hg).
        exists (f :: l1), g, l2. split; [done |]. split.
        { by rewrite Hlog, Hp, <- !app_assoc. }
        split; [| done]. intros h Hh.
        apply elem_of_cons in Hh as [-> | Hh]; [| by apply Hl1].
        apply spec_stream_resolvable. by eexists.
    + exists [], f, fs. split; [done |]. split; [done |]. split.
      * intros g Hg. by apply elem_of_nil in Hg.
      * intros Hr. apply spec_stream_resolvable in Hr as [s Hs]. congruence.
Qed.

(** X7.  The loop asks for the parts of the formats in the order of the
    list, one call each.  A result without error means every format was
    asked for; a result with an error means the calls stop at the first
    format that is not resolvable: no format after it is touched. *)
Theorem primary_calls_in_order (url : string) (v : Video) :
  (DataErr (youtubeDownload env url v) = None →
   primaryCalls (youtubeDownload_calls env url v) = Formats v)
  ∧ (∀ cause,
       DataErr (youtubeDownload env url v) = Some cause →
       ∃ l1 f l2,
         Formats v = l1 ++ f :: l2
         ∧ primaryCalls (youtubeDownload_calls env url v) = l1 ++ [f]
         ∧ (∀ g, g ∈ l1 → resolvable env v g)
         ∧ ¬ resolvable env v f).
Proof.
  unfold youtubeDownload_calls, youtubeDownload, youtubeDownload_traced.
  pose proof (forFormats_primary v (Formats v) ∅ ∅ [] (cacheOK_empty env v)) as H.
  destruct (forFormats env v (Formats v) (∅, ∅) []) as [log [[m c]|e]]; simpl.
  - split; [done |]. by intros cause.
  - split; [done |]. intros cause _. exact H.
Qed.

Lemma loopBody_lookup_origin (v : Video) (f : Format) (st : LoopState) log ext :
  countCalls (isLookup ext) (loopBody env v f st log).1
  = countCalls (isLookup ext) log
  ∨ (AudioChannels f = 0%Z ∧ getStreamExt (MimeType f) = ext).
Proof.
  destruct st as [streams cache]. run_body;
    rewrite ?countCalls_app; simpl;
    try (left; lia);
    (case_bool_decide as Hext;
     [right; split; [done |]; rewrite <- Hext;
      symmetry; by eapply genPartByFormat_Ok
     | left; lia]).
Qed.

Lemma forFormats_lookup_origin (v : Video) (fs : list Format) (st : LoopState)
    log ext :
  countCalls (isLookup ext) (forFormats env v fs st log).1
  = countCalls (isLookup ext) log
  ∨ ∃ f, f ∈ fs ∧ AudioChannels f = 0%Z ∧ getStreamExt (MimeType f) = ext.
Proof.
  revert st log; induction fs as [|f fs IH]; intros st log; [by left |].
  rewrite forFormats_cons.
  pose proof (loopBody_lookup_origin v f st log ext) as Hb.
  destruct (loopBody env v f st log) as [log1 [st1|e]]; simpl in Hb.
  - destruct (IH st1 log1) as [Heq | (g & Hg & H)].
    + destruct Hb as [Hb | Hb].
      * left. congruence.
      * right. exists f. split; [by left | done].
    + right. exists g. split; [by right | done].
  - simpl. destruct Hb as [Hb | Hb]; [by left |].
    right. exists f. split; [by left | done].
Qed.

Lemma loopBody_cached (v : Video) (f : Format) (st : LoopState) log :
  (∀ ext, is_Some (st.2 !! ext) →
          1 ≤ countCalls (isLookup ext) log
          ∧ 1 ≤ countCalls (isAudioPart ext) log) →
  match loopBody env v f st log with
  | (log', Ok st') =>
      (∀ ext, is_Some (st'.2 !! ext) →
              1 ≤ countCalls (isLookup ext) log'
              ∧ 1 ≤ countCalls (isAudioPart ext) log')
      ∧ (∀ ext, is_Some (st.2 !! ext) → is_Some (st'.2 !! ext))
      ∧ (AudioChannels f = 0%Z →
         is_Some (st'.2 !! getStreamExt (MimeType f)))
  | (log', Err _) => True
  end.
Proof.
  destruct st as [streams cache]. simpl. intros Hinv. run_body; try done.
  all: try (apply genPartByFormat_Ok in Hpart as [_ Hext]; rewrite Hext in * ).
  - split; [| split; [done | by intros _; eexists]].
    intros ext Hsome. destruct (Hinv ext Hsome).
    rewrite !countCalls_app. simpl. lia.
  - destruct (genPartByFormat env v a0) as [ap|e] eqn:Hap; simpl; [| done].
    split; [| split].
    + intros ext. rewrite lookup_insert. rewrite !countCalls_app. simpl.
      case_decide as Heq.
      * subst ext. rewrite !bool_decide_eq_true_2 by done. lia.
      * intros Hsome. destruct (Hinv ext Hsome).
        rewrite !bool_decide_eq_false_2 by done. lia.
    + intros ext Hsome. rewrite lookup_insert. by case_decide.
    + intros _. by rewrite lookup_insert_eq.
  - split; [| split; [done | done]].
    intros ext Hsome. destruct (Hinv ext Hsome).
    rewrite !countCalls_app. simpl. lia.
Qed.

Lemma forFormats_cached (v : Video) (fs : list Format) (st : LoopState) log :
  (∀ ext, is_Some (st.2 !! ext) →
          1 ≤ countCalls (isLookup ext) log
          ∧ 1 ≤ countCalls (isAudioPart ext) log) →
  match forFormats env v fs st log with
  | (log', Ok st') =>
      (∀ ext, is_Some (st'.2 !! ext) →
              1 ≤ countCalls (isLookup ext) log'
              ∧ 1 ≤ countCalls (isAudioPart ext) log')
      ∧ (∀ ext, is_Some (st.2 !! ext) → is_Some (st'.2 !! ext))
      ∧ (∀ f, f ∈ fs → AudioChannels f = 0%Z →
              is_Some (st'.2 !! getStreamExt (MimeType f)))
  | (log', Err _) => True
  end.
Proof.
  revert st log; induction fs as [|f fs IH]; intros st log Hinv.
  - simpl. split; [done |]. split; [done |]. intros f Hf.
    by apply elem_of_nil in Hf.
  - rewrite forFormats_cons.
    pose proof (loopBody_cached v f st log Hinv) as Hb.
    destruct (loopBody env v f st log) as [log1 [st1|e]]; [| done].
    destruct Hb as (Hinv1 & Hmono1 & Hf).
    specialize (IH st1 log1 Hinv1).
    destruct (forFormats env v fs st1 log1) as [log' [st'|e]]; [| done].
    destruct IH as (Hinv' & Hmono' & Hfs).
    split; [done |]. split; [by auto |].
    intros g Hg Hz. apply elem_of_cons in Hg as [-> | Hg]; [| by apply Hfs].
    by apply Hmono', Hf.
Qed.

(** X8.  [getVideoAudio] is called only for the extension of a
    video-only format of the list: a video whose formats all have audio
    channels causes no audio lookup.  In a run without error the audio
    format of the extension of every video-only format is looked up
    exactly once and its part resolved exactly once. *)
Theorem audio_lookup_exact (url : string) (v : Video) :
  (∀ ext,
     0 < countCalls (isLookup ext) (youtubeDownload_calls env url v) →
     ∃ f, f ∈ Formats v ∧ AudioChannels f = 0%Z
          ∧ getStreamExt (MimeType f) = ext)
  ∧ (DataErr (youtubeDownload env url v) = None →
     ∀ f, f ∈ Formats v → AudioChannels f = 0%Z →
          countCalls (isLookup (getStreamExt (MimeType f)))
            (youtubeDownload_calls env url v) = 1
          ∧ countCalls (isAudioPart (getStreamExt (MimeType f)))
              (youtubeDownload_calls env url v) = 1).
Proof.
  unfold youtubeDownload_calls, youtubeDownload, youtubeDownload_traced.
  pose proof (λ ext, forFormats_lookup_origin v (Formats v) (∅, ∅) [] ext) as Horigin.
  pose proof (forFormats_cached v (Formats v) (∅, ∅) []) as Hcached.
  pose proof (forFormats_invariant env v (λ st log, onceInv st.2 log) onceEnd
                (loopBody_once env v) (Formats v) (∅, ∅) []) as Honce.
  destruct (forFormats env v (Formats v) (∅, ∅) []) as [log [[m c]|e]];
    simpl in *.
  - split.
    + intros ext Hpos. destruct (Horigin ext) as [Heq | H]; [lia | done].
    + intros _ f Hf Hz.
      destruct Hcached as (Hge & _ & Hall).
      { intros ext [p Hp]. by rewrite lookup_empty in Hp. }
      destruct (Hge _ (Hall f Hf Hz)) as [H1 H2].
      assert (onceInv c log) as Honce'.
      { apply Honce. intros ext. simpl. repeat split; lia. }
      destruct (Honce' (getStreamExt (MimeType f))) as (H3 & H4 & _).
      split; [apply Nat.le_antisymm; [apply H3 | apply H1]
             | apply Nat.le_antisymm; [apply H4 | apply H2]].
  - split; [| done].
    intros ext Hpos. destruct (Horigin ext) as [Heq | H]; [lia | done].
Qed.

End MoreResolution.

(** ** More about the playlist path *)

Section MorePlaylist.

Variable env : Env.

#[local] Instance successor_inj : Inj (=) (=) (λ i : nat, (Z.of_nat i + 1)%Z).
Proof. intros a b ?. lia. Qed.

Lemma selected_positions_range (items : list Z) (n : nat) (x : Z) :
  x ∈ (λ i : nat, (Z.of_nat i + 1)%Z) <$> selectedPositions items n →
  x ∈ items ∧ (1 ≤ x ≤ Z.of_nat n)%Z.
Proof.
  intros Hx. apply list_elem_of_fmap in Hx as (i & -> & Hi).
  apply list_elem_of_filter in Hi as [Hi Hseq].
  apply elem_of_seq in Hseq. split; [done | lia].
Qed.

Lemma selected_positions_NoDup (items : list Z) (n : nat) :
  NoDup ((λ i : nat, (Z.of_nat i + 1)%Z) <$> selectedPositions items n).
Proof.
  apply (NoDup_fmap_2 _). apply NoDup_filter, NoDup_seq.
Qed.

Lemma selected_lt_out_of_range (items : list Z) (n : nat) (x : Z) :
  x ∈ items → ¬ (1 ≤ x ≤ Z.of_nat n)%Z →
  length (selectedPositions items n) < length items.
Proof.
  intros Hx Hout.
  rewrite <- (length_fmap (λ i : nat, (Z.of_nat i + 1)%Z)).
  assert (x :: ((λ i : nat, (Z.of_nat i + 1)%Z) <$> selectedPositions items n)
          ⊆+ items) as Hsub.
  { apply NoDup_submseteq.
    - apply NoDup_cons. split; [| apply selected_positions_NoDup].
      intros Hin. by apply selected_positions_range in Hin as [_ Hin].
    - intros y Hy. apply elem_of_cons in Hy as [-> | Hy]; [done |].
      by apply selected_positions_range in Hy as [Hy _]. }
  apply submseteq_length in Hsub. simpl in Hsub. lia.
Qed.

Lemma selected_lt_repeated (items : list Z) (n : nat) :
  ¬ NoDup items → length (selectedPositions items n) < length items.
Proof.
  intros Hdup.
  rewrite <- (length_fmap (λ i : nat, (Z.of_nat i + 1)%Z)).
  assert (((λ i : nat, (Z.of_nat i + 1)%Z) <$> selectedPositions items n)
          ⊆+ items) as Hsub.
  { apply NoDup_submseteq; [apply selected_positions_NoDup |].
    intros y Hy. by apply selected_positions_range in Hy as [Hy _]. }
  pose proof (submseteq_length _ _ Hsub) as Hle.
  destruct (decide (length items
                    ≤ length ((λ i : nat, (Z.of_nat i + 1)%Z)
                                <$> selectedPositions items n))) as [Hge|]; [| lia].
  exfalso. apply Hdup.
  rewrite <- (submseteq_length_Permutation _ _ Hsub Hge).
  apply selected_positions_NoDup.
Qed.

(** X9.  In playlist mode the slots past the number of selected
    playlist positions are returned nil, whatever the schedule.  There
    are such slots as soon as [needDownloadItems] holds an index outside
    1..len(playlist.Videos) or holds an index twice: the slice then ends
    in nil entries although no entry failed. *)
Theorem playlist_unfilled_slots (sched : list Action) (url : string)
    (opts : Options) (pl : Playlist) (out : list (option Data)) :
  OptPlaylist opts = true → GetPlaylist env url = Ok pl →
  Extract env sched url opts = Some (Returns (Some out) None) →
  (∀ i,
     length (selectedPositions (needDownloadItems env opts pl)
               (length (Videos pl))) ≤ i →
     i < length out → out !! i = Some None)
  ∧ ((∃ x, x ∈ needDownloadItems env opts pl
           ∧ ¬ (1 ≤ x ≤ Z.of_nat (length (Videos pl)))%Z) →
     length (selectedPositions (needDownloadItems env opts pl)
               (length (Videos pl))) < length out)
  ∧ (¬ NoDup (needDownloadItems env opts pl) →
     length (selectedPositions (needDownloadItems env opts pl)
               (length (Videos pl))) < length out).
Proof.
  intros Hmode Hpl Hex.
  destruct (Extract_playlist_slots env _ _ _ _ _ Hmode Hpl Hex)
    as (out0 & [= <-] & Hlen & _ & Hrest).
  rewrite Hlen. split; [| split].
  - intros i Hge Hlt. by apply Hrest.
  - intros (x & Hx & Hout). by eapply selected_lt_out_of_range.
  - apply selected_lt_repeated.
Qed.

Lemma youtubeDownload_url (url : string) (v : Video) :
  DataURL (youtubeDownload env url v) = url
  ∧ (DataErr (youtubeDownload env url v) = None
     ∨ ∃ cause, youtubeDownload env url v = EmptyData url cause).
Proof.
  rewrite youtubeDownload_spec.
  destruct (spec_catalogue env v (Formats v) ∅) as [m|e]; simpl.
  - split; [done | by left].
  - split; [done |]. right. by exists e.
Qed.

(** X10.  In playlist mode every result in the returned slice is the
    result of [youtubeDownload] for a selected entry that resolved, and
    it carries the URL of the playlist that was passed to [Extract], not
    an URL of the video; a video whose formats fail fills its slot with
    the failure-shaped result. *)
Theorem playlist_results_carry_url (sched : list Action) (url : string)
    (opts : Options) (pl : Playlist) (out : list (option Data))
    (i : nat) (d : Data) :
  OptPlaylist opts = true → GetPlaylist env url = Ok pl →
  Extract env sched url opts = Some (Returns (Some out) None) →
  out !! i = Some (Some d) →
  DataURL d = url
  ∧ (DataErr d = None ∨ ∃ cause, d = EmptyData url cause)
  ∧ ∃ p e v,
      selectedPositions (needDownloadItems env opts pl) (length (Videos pl)) !! i
      = Some p
      ∧ Videos pl !! p = Some e
      ∧ VideoFromPlaylistEntry env e = Ok v
      ∧ d = youtubeDownload env url v.
Proof.
  intros Hmode Hpl Hex Hd.
  destruct (Extract_playlist_slots env _ _ _ _ _ Hmode Hpl Hex)
    as (out0 & [= <-] & Hlen & Hsel & Hrest).
  pose proof (lookup_lt_Some _ _ _ Hd) as Hlt. rewrite Hlen in Hlt.
  destruct (selectedPositions (needDownloadItems env opts pl)
              (length (Videos pl)) !! i) as [p|] eqn:Hi.
  - destruct (Hsel i p Hi) as (e & He & Hout).
    rewrite Hd in Hout. injection Hout as Hout. unfold taskResult in Hout.
    destruct (VideoFromPlaylistEntry env e) as [v|] eqn:Hv; [| done].
    injection Hout as ->.
    destruct (youtubeDownload_url url v) as [Hurl Hshape].
    split; [done |]. split.
    + done.
    + by exists p, e, v.
  - apply lookup_ge_None in Hi. rewrite (Hrest i Hi Hlt) in Hd. done.
Qed.

End MorePlaylist.

(** ** The start-up *)

Module BootFacts.
Import Boot.

Lemma stripPrefix_Some (p s r : string) :
  stripPrefix p s = Some r ↔ s = p +:+ r.
Proof.
  revert s; induction p as [|a p IH]; intros s; simpl.
  - rewrite PatternFacts.append_empty. split; congruence.
  - rewrite PatternFacts.append_cons. destruct s as [|b s]; [done |].
    case_bool_decide as Hab.
    + subst. rewrite IH. split; congruence.
    + split; [done | congruence].
Qed.

Lemma Cut_unfold (s sep : string) :
  Cut s sep =
  match stripPrefix sep s with
  | Some after => (EmptyString, after, true)
  | None =>
      match s with
      | EmptyString => (EmptyString, EmptyString, false)
      | String c s' =>
          let '(before, after, found) := Cut s' sep in
          if found then (String c before, after, true)
          else (s, EmptyString, false)
      end
  end.
Proof. by destruct s. Qed.

(** [Cut] splits at the first occurrence of the separator. *)
Lemma Cut_spec (s sep : string) :
  match Cut s sep with
  | (before, after, true) =>
      s = before +:+ sep +:+ after
      ∧ ∀ b a, s = b +:+ sep +:+ a → String.length before ≤ String.length b
  | (before, after, false) =>
      before = s ∧ after = "" ∧ ∀ b a, s ≠ b +:+ sep +:+ a
  end.
Proof.
  induction s as [|c s IH]; rewrite Cut_unfold.
  - destruct (stripPrefix sep "") as [r|] eqn:Hp.
    + apply stripPrefix_Some in Hp. split; [done |]. intros; simpl; lia.
    + split; [done |]. split; [done |]. intros b a Hs.
      destruct b as [|x b]; [| by rewrite PatternFacts.append_cons in Hs].
      rewrite PatternFacts.append_empty in Hs.
      apply stripPrefix_Some in Hs. congruence.
  - destruct (stripPrefix sep (String c s)) as [r|] eqn:Hp.
    + apply stripPrefix_Some in Hp. split; [done |]. intros; simpl; lia.
    + destruct (Cut s sep) as [[before after] found].
      destruct found.
      * destruct IH as [-> Hmin]. split; [done |]. intros b a Hs.
        destruct b as [|x b].
        { rewrite PatternFacts.append_empty in Hs.
          apply stripPrefix_Some in Hs. congruence. }
        rewrite PatternFacts.append_cons in Hs. injection Hs as _ Hs.
        apply Hmin in Hs. simpl. lia.
      * destruct IH as (_ & _ & Hno). split; [done |]. split; [done |].
        intros b a Hs. destruct b as [|x b].
        { rewrite PatternFacts.append_empty in Hs.
          apply stripPrefix_Some in Hs. congruence. }
        rewrite PatternFacts.append_cons in Hs. injection Hs as _ Hs.
        by apply Hno in Hs.
Qed.

Lemma append_inj_length (a b x y : string) :
  a +:+ x = b +:+ y → String.length a = String.length b → a = b ∧ x = y.
Proof.
  revert b; induction a as [|c a IH]; intros [|d b] Heq Hlen; try done.
  rewrite !PatternFacts.append_cons in Heq. injection Heq as -> Heq.
  simpl in Hlen. destruct (IH b Heq) as [-> ->]; [lia | done].
Qed.

Lemma Cut_first (s sep before after : string) :
  s = before +:+ sep +:+ after →
  (∀ b a, s = b +:+ sep +:+ a → String.length before ≤ String.length b) →
  Cut s sep = (before, after, true).
Proof.
  intros Hs Hmin. pose proof (Cut_spec s sep) as Hc.
  destruct (Cut s sep) as [[b a] found]. destruct found.
  - destruct Hc as [Hs' Hmin'].
    assert (String.length b = String.length before) as Hlen.
    { apply Nat.le_antisymm;
        [by apply (Hmin' before after) | by apply (Hmin b a)]. }
    rewrite Hs in Hs'. symmetry in Hs'.
    destruct (append_inj_length _ _ _ _ Hs' Hlen) as [-> Hrest].
    destruct (append_inj_length _ _ _ _ Hrest eq_refl) as [_ ->]. done.
  - destruct Hc as (_ & _ & Hno). by destruct (Hno before after).
Qed.

Lemma Cut_absent (s sep : string) :
  Str.Contains s sep = false → (Cut s sep).2 = false.
Proof.
  intros Hno. pose proof (Cut_spec s sep) as Hc.
  destruct (Cut s sep) as [[b a] found]. destruct found; [| done].
  destruct Hc as [-> _]. by rewrite Contains_app in Hno.
Qed.

Section Facts.

Variable net : Net.

(** X11.  Once the landing page is read, [getVisitorId] fails with
    "separator not found in response" when the page does not contain the
    separator; otherwise the JSON decoder is given exactly the text that
    follows the first occurrence of the separator, and the visitor id is
    the unescaped visitor data it decodes, a decoding or unescaping
    error being returned wrapped. *)
Theorem getVisitorId_after_separator (req : Request) (resp : Response)
    (data : string) :
  NewRequest net "GET" "https://www.youtube.com" = Ok req →
  DefaultClient_Do net req = Ok resp →
  Body resp = Ok data →
  (Str.Contains data sep = false →
   getVisitorId net = inl (Errorf "separator not found in response" None))
  ∧ (∀ before ytcnf,
       data = before +:+ sep +:+ ytcnf →
       (∀ b a, data = b +:+ sep +:+ a →
               String.length before ≤ String.length b) →
       getVisitorId net =
       match Decode net ytcnf with
       | Err err => inl (Errorf "failed to decode JSON: " (Some err))
       | Ok visitorData =>
           match PathUnescape net visitorData with
           | Err err =>
               inl (Errorf "failed to unescape visitor data: " (Some err))
           | Ok visitor => inr visitor
           end
       end).
Proof.
  intros Hreq Hdo Hbody. unfold getVisitorId. rewrite Hreq, Hdo, Hbody. split.
  - intros Hno. apply Cut_absent in Hno.
    destruct (Cut data sep) as [[b a] found]. simpl in Hno. by rewrite Hno.
  - intros before ytcnf Hs Hmin. by rewrite (Cut_first _ _ _ _ Hs Hmin).
Qed.

(** *** Headers *)

Lemma foldl_Header_Set_frame (order : list (string * string)) (req : Request) :
  Method (foldl (λ r kv, Header_Set net r kv.1 kv.2) req order) = Method req
  ∧ RequestURL (foldl (λ r kv, Header_Set net r kv.1 kv.2) req order)
    = RequestURL req.
Proof.
  revert req; induction order as [|kv order IH]; intros req; [done |].
  simpl. destruct (IH (Header_Set net req kv.1 kv.2)) as [-> ->]. done.
Qed.

Lemma foldl_Header_Set_other (order : list (string * string)) (req : Request)
    (k : string) :
  (∀ key v, (key, v) ∈ order → CanonicalMIMEHeaderKey net key ≠ k) →
  Header (foldl (λ r kv, Header_Set net r kv.1 kv.2) req order) !! k
  = Header req !! k.
Proof.
  revert req; induction order as [|[key v] order IH]; intros req Hne; [done |].
  simpl. rewrite IH by (intros key' v' H'; apply (Hne key' v'); by right).
  simpl. apply lookup_insert_ne. apply (Hne key v). by left.
Qed.

Lemma foldl_Header_Set_key (order : list (string * string)) (req : Request)
    (key v : string) :
  (key, v) ∈ order →
  (∀ key' v', (key', v') ∈ order →
     CanonicalMIMEHeaderKey net key' = CanonicalMIMEHeaderKey net key →
     v' = v) →
  Header (foldl (λ r kv, Header_Set net r kv.1 kv.2) req order)
    !! CanonicalMIMEHeaderKey net key = Some [v].
Proof.
  revert req. induction order as [|[key' v'] order IH] using rev_ind;
    intros req Hin Huniq.
  - by apply elem_of_nil in Hin.
  - rewrite foldl_app. simpl.
    destruct (decide (CanonicalMIMEHeaderKey net key'
                      = CanonicalMIMEHeaderKey net key)) as [Heq|Hne].
    + rewrite Heq, lookup_insert_eq.
      rewrite (Huniq key' v'); [done | | done].
      apply elem_of_app. right. by left.
    + rewrite lookup_insert_ne by done. apply IH.
      * apply elem_of_app in Hin as [Hin | Hin]; [done |].
        apply list_elem_of_singleton in Hin. congruence.
      * intros k2 v2 H2. apply Huniq. apply elem_of_app. by left.
Qed.

(** X12.  [RoundTrip] hands the request to the base transport after
    setting the configured headers, and returns the base transport's
    answer as it is.  Whatever the order in which the map of headers is
    ranged over: the method and URL of the request are unchanged; a
    header whose key is not the canonical form of a configured key is
    unchanged; and a configured header whose canonical key no other
    configured key shares holds exactly the configured value, the value
    the caller had put there being replaced. *)
Theorem RoundTrip_sets_headers (t : youtubeTransport)
    (order : list (string * string)) (req : Request) :
  order ≡ₚ map_to_list (headers t) →
  (RoundTrip net t order req).2 = base t (RoundTrip net t order req).1
  ∧ Method (RoundTrip net t order req).1 = Method req
  ∧ RequestURL (RoundTrip net t order req).1 = RequestURL req
  ∧ (∀ k,
       (∀ key v, headers t !! key = Some v →
                 CanonicalMIMEHeaderKey net key ≠ k) →
       Header (RoundTrip net t order req).1 !! k = Header req !! k)
  ∧ (∀ key v,
       headers t !! key = Some v →
       (∀ key' v', headers t !! key' = Some v' →
          CanonicalMIMEHeaderKey net key' = CanonicalMIMEHeaderKey net key →
          key' = key) →
       Header (RoundTrip net t order req).1 !! CanonicalMIMEHeaderKey net key
       = Some [v]).
Proof.
  intros Horder. unfold RoundTrip. simpl.
  assert (∀ key v, (key, v) ∈ order ↔ headers t !! key = Some v) as Hin.
  { intros key v. rewrite Horder. apply elem_of_map_to_list. }
  split; [done |].
  destruct (foldl_Header_Set_frame order req) as [Hm Hu].
  split; [done |]. split; [done |]. split.
  - intros k Hne. apply foldl_Header_Set_other.
    intros key v Hkv. apply (Hne key v). by apply Hin.
  - intros key v Hkv Huniq. apply foldl_Header_Set_key; [by apply Hin |].
    intros key' v' Hkv' Hcanon. apply Hin in Hkv'.
    rewrite (Huniq key' v' Hkv' Hcanon) in Hkv'. congruence.
Qed.

(** X13.  [New] panics exactly when [getVisitorId] fails, with the
    message "failed to get visitorId: " followed by the text of the
    error.  Otherwise the transport it builds sends every request to the
    [http.Transport] with the header x-goog-visitor-id, under its
    canonical key, set to the visitor id alone, and leaves every other
    header of the request as it was. *)
Theorem New_visitor_header :
  (∀ err, getVisitorId net = inl err →
          New net = NewPanics ("failed to get visitorId: " +:+ fmtErrorText err))
  ∧ (∀ visitor,
       getVisitorId net = inr visitor →
       ∃ t,
         New net = NewReturns t
         ∧ ∀ order req,
             order ≡ₚ map_to_list (headers t) →
             (RoundTrip net t order req).2
             = http_Transport net (RoundTrip net t order req).1
             ∧ Header (RoundTrip net t order req).1
                 !! CanonicalMIMEHeaderKey net "x-goog-visitor-id"
               = Some [visitor]
             ∧ ∀ k, k ≠ CanonicalMIMEHeaderKey net "x-goog-visitor-id" →
                    Header (RoundTrip net t order req).1 !! k
                    = Header req !! k).
Proof.
  unfold New. split.
  - by intros err ->.
  - intros visitor ->. eexists. split; [done |].
    intros order req Horder. simpl in Horder.
    rewrite map_to_list_singleton in Horder.
    apply Permutation_singleton_r in Horder. subst order.
    unfold RoundTrip. simpl. split; [done |]. split.
    + apply lookup_insert_eq.
    + intros k Hk. by apply lookup_insert_ne.
Qed.

End Facts.

End BootFacts.

(** ** More concrete runs *)

Module MoreWitness.
Import Fixture Sample.

Ltac compute_eq := vm_compute; reflexivity.
Ltac decide_it := apply (bool_decide_unpack _); vm_compute; exact I.


Lemma getVideoAudio_finds_iff_witness :
  (∃ a, getVideoAudio env (video webm3) "webm" = Ok a)
  ∧ (∃ a, getVideoAudio env (video [bare; opus]) "" = Ok a)
  ∧ getVideoAudio env (video silent) "webm"
    = Err (New "no audio format found after filtering").
Proof.
  destruct (getVideoAudio_finds_iff env (video webm3) "webm") as (Hwebm & _).
  destruct (getVideoAudio_finds_iff env (video [bare; opus]) "")
    as (_ & _ & _ & Hbare).
  destruct (getVideoAudio_finds_iff env (video silent) "webm")
    as (Hsilent & _ & Herr & _).
  split; [| split].
  - apply Hwebm. exists opus. split; [decide_it |]. split; reflexivity.
  - apply Hbare. exists opus. split; [decide_it | reflexivity].
  - destruct (getVideoAudio env (video silent) "webm") as [a|e] eqn:Ha.
    + exfalso. destruct (proj1 Hsilent) as (g & Hin & Hext & Haud);
        [by exists a |].
      unfold video, silent in Hin. simpl in Hin.
      repeat (apply elem_of_cons in Hin as [-> | Hin];
              [first [discriminate Hext | discriminate Haud] |]).
      by apply elem_of_nil in Hin.
    + f_equal. by apply Herr.
Defined.

Lemma getStreamExt_word_chars_witness :
  Str.all_word (getStreamExt webm_mime) = true
  ∧ Str.Contains webm_mime ("/" +:+ getStreamExt webm_mime +:+ ";") = true.
Proof.
  destruct (getStreamExt_word_chars webm_mime) as [Hw Hc].
  split; [exact Hw |]. apply Hc. vm_compute. discriminate.
Defined.

Lemma webm3_resolvable (g : Format) : g ∈ webm3 → resolvable env (video webm3) g.
Proof.
  intros Hg. unfold webm3 in Hg.
  repeat (apply elem_of_cons in Hg as [-> | Hg]); [.. | by apply elem_of_nil in Hg].
  all: split; [eexists; reflexivity |].
  all: try (intros H; discriminate H).
  all: intros _; exists opus; eexists.
  all: split; [vm_compute; reflexivity | reflexivity].
Qed.

Lemma youtubeDownload_succeeds_iff_witness :
  DataErr (youtubeDownload env "u" (video webm3)) = None
  ∧ resolvable env (video webm3) vp9_720
  ∧ ¬ (∀ f, f ∈ Formats (video broken) → resolvable env (video broken) f).
Proof.
  split; [| split].
  - apply (youtubeDownload_succeeds_iff env "u" (video webm3)).
    exact webm3_resolvable.
  - apply (proj1 (youtubeDownload_succeeds_iff env "u" (video webm3)));
      [compute_eq | decide_it].
  - intros Hall.
    apply (youtubeDownload_succeeds_iff env "u" (video broken)) in Hall.
    vm_compute in Hall. discriminate Hall.
Defined.

Lemma muxed18_resolvable (fs : list Format) (g : Format) :
  g ∈ [muxed18] → resolvable env (video fs) g.
Proof.
  intros Hg. apply list_elem_of_singleton in Hg. subst g.
  split; [by eexists |]. intros H. discriminate H.
Qed.

Lemma youtubeDownload_first_failure_witness :
  youtubeDownload env "u" (video (broken ++ [vp9_720]))
  = EmptyData "u" (WithStack (Upstream "cipher"))
  ∧ youtubeDownload env "u" (video silent)
    = EmptyData "u" (New "no audio format found after filtering").
Proof.
  split.
  - destruct (youtubeDownload_first_failure env "u" (video (broken ++ [vp9_720]))
                [muxed18] [vp9_720] cipher666 eq_refl (muxed18_resolvable _))
      as [Hurl _].
    apply Hurl. reflexivity.
  - destruct (youtubeDownload_first_failure env "u" (video silent)
                [muxed18] [mp4a] vp9_720 eq_refl (muxed18_resolvable _))
      as [_ Haudio].
    destruct (Haudio "https://cdn/v/247" eq_refl eq_refl) as [Hnone _].
    apply Hnone. compute_eq.
Defined.

Lemma youtubeDownload_result_shape_witness :
  (DataErr (youtubeDownload env "u" (video [])) = None
   ∧ Streams (youtubeDownload env "u" (video [])) = ∅)
  ∧ DataTitle (youtubeDownload env "u" (video webm3)) = "t"
  ∧ ID stream1080 = "248"
  ∧ ∃ p rest, Parts stream1080 = p :: rest ∧ Ext stream1080 = PartExt p
              ∧ length rest ≤ 1.
Proof.
  destruct (youtubeDownload_result_shape env "u" (video [])) as [Hempty _].
  destruct (youtubeDownload_result_shape env "u" (video webm3)) as [_ Hshape].
  destruct Hshape as (_ & _ & Htitle & _ & _ & Hstreams); [compute_eq |].
  split; [by apply Hempty |]. split; [exact Htitle |].
  apply (Hstreams "248" stream1080). compute_eq.
Defined.

Lemma primary_calls_in_order_witness :
  primaryCalls (youtubeDownload_calls env "u" (video webm3)) = webm3
  ∧ ∃ l1 f l2,
      Formats (video (broken ++ [vp9_720])) = l1 ++ f :: l2
      ∧ primaryCalls (youtubeDownload_calls env "u" (video (broken ++ [vp9_720])))
        = l1 ++ [f]
      ∧ (∀ g, g ∈ l1 → resolvable env (video (broken ++ [vp9_720])) g)
      ∧ ¬ resolvable env (video (broken ++ [vp9_720])) f.
Proof.
  split.
  - apply (primary_calls_in_order env "u" (video webm3)). compute_eq.
  - apply (proj2 (primary_calls_in_order env "u" (video (broken ++ [vp9_720])))
             (WithStack (Upstream "cipher"))).
    compute_eq.
Defined.

Lemma audio_lookup_exact_witness :
  (∃ f, f ∈ Formats (video webm3) ∧ AudioChannels f = 0%Z
        ∧ getStreamExt (MimeType f) = "webm")
  ∧ countCalls (isLookup (getStreamExt (MimeType vp9_1440)))
      (youtubeDownload_calls env "u" (video webm3)) = 1
  ∧ countCalls (isAudioPart (getStreamExt (MimeType vp9_1440)))
      (youtubeDownload_calls env "u" (video webm3)) = 1.
Proof.
  destruct (audio_lookup_exact env "u" (video webm3)) as [Horigin Hexact].
  split.
  - apply Horigin. vm_compute. lia.
  - apply Hexact; [compute_eq | decide_it | reflexivity].
Defined.

Lemma playlist_unfilled_slots_witness :
  Extract env (take 4 sequential257) "pl" pastEnd
  = Some (Returns (Some outPastEnd) None)
  ∧ outPastEnd !! 3 = Some None
  ∧ length (selectedPositions (needDownloadItems env pastEnd pl8)
              (length (Videos pl8))) < length outPastEnd.
Proof.
  split; [compute_eq |].
  destruct (playlist_unfilled_slots env (take 4 sequential257) "pl" pastEnd pl8
              outPastEnd) as (Hnil & Hrange & _);
    [reflexivity | reflexivity | compute_eq |].
  split.
  - apply Hnil; vm_compute; lia.
  - apply Hrange. exists 9%Z. split; [decide_it |]. vm_compute. intros [_ H].
    by apply H.
Defined.

Lemma playlist_results_carry_url_witness :
  out257 !! 0 = Some (taskResult env "pl" (entryOf "e2"))
  ∧ ∃ d, out257 !! 0 = Some (Some d)
         ∧ DataURL d = "pl"
         ∧ (DataErr d = None ∨ ∃ cause, d = EmptyData "pl" cause)
         ∧ ∃ p e v,
             selectedPositions (needDownloadItems env (playlistOpts "2,5,7" 2) pl8)
               (length (Videos pl8)) !! 0 = Some p
             ∧ Videos pl8 !! p = Some e
             ∧ VideoFromPlaylistEntry env e = Ok v
             ∧ d = youtubeDownload env "pl" v.
Proof.
  split; [reflexivity |].
  exists (youtubeDownload env "pl"
            {| VideoID := "e2"; Title := "e2"; Formats := [muxed18] |}).
  split; [reflexivity |].
  apply (playlist_results_carry_url env sched257 "pl" (playlistOpts "2,5,7" 2)
           pl8 out257 0); [reflexivity | reflexivity | compute_eq | reflexivity].
Defined.

Lemma page_first_separator (b a : string) :
  page = b +:+ Boot.sep +:+ a → String.length "<html>" ≤ String.length b.
Proof.
  intros Hs. pose proof (BootFacts.Cut_spec page Boot.sep) as Hc.
  destruct (Boot.Cut page Boot.sep) as [[before after] found] eqn:Hcut.
  vm_compute in Hcut. injection Hcut as <- <- <-.
  destruct Hc as [_ Hmin]. by apply (Hmin b a).
Qed.

Lemma getVisitorId_after_separator_witness :
  Boot.getVisitorId (net "nothing")
  = inl (Boot.Errorf "separator not found in response" None)
  ∧ Boot.getVisitorId (net page) = inr "Cgt2aXNpdG9y==".
Proof.
  split.
  - apply (BootFacts.getVisitorId_after_separator (net "nothing")
             {| Boot.Method := "GET"; Boot.RequestURL := "https://www.youtube.com";
                Boot.Header := ∅ |}
             (landing "nothing") "nothing"); reflexivity.
  - destruct (BootFacts.getVisitorId_after_separator (net page)
                {| Boot.Method := "GET"; Boot.RequestURL := "https://www.youtube.com";
                   Boot.Header := ∅ |}
                (landing page) page eq_refl eq_refl eq_refl) as [_ Hfound].
    rewrite (Hfound "<html>"
               ("Cgt2aXNpdG9y%3D%3D" +:+ String "034" ");" +:+ Boot.sep
                +:+ "other);")).
    + reflexivity.
    + reflexivity.
    + exact page_first_separator.
Defined.

Lemma transport_keys (key v : string) :
  Boot.headers transport !! key = Some v →
  key = "x-goog-visitor-id" ∨ key = "accept".
Proof.
  intros H.
  destruct (decide (key = "x-goog-visitor-id")) as [|Hn1]; [by left |].
  destruct (decide (key = "accept")) as [|Hn2]; [by right |].
  exfalso. unfold transport in H. cbn [Boot.headers] in H.
  rewrite lookup_insert_ne in H by done.
  rewrite lookup_singleton_ne in H by done. done.
Qed.

Lemma RoundTrip_sets_headers_witness :
  (Boot.RoundTrip (net "") transport (map_to_list (Boot.headers transport)) request).2
  = Ok (landing "ok")
  ∧ Boot.Header
      (Boot.RoundTrip (net "") transport (map_to_list (Boot.headers transport))
         request).1 !! "X-Goog-Visitor-Id" = Some ["v1"]
  ∧ Boot.Header
      (Boot.RoundTrip (net "") transport (map_to_list (Boot.headers transport))
         request).1 !! "Cookie" = Boot.Header request !! "Cookie".
Proof.
  destruct (BootFacts.RoundTrip_sets_headers (net "") transport
              (map_to_list (Boot.headers transport)) request (reflexivity _))
    as (Hbase & _ & _ & Hother & Hset).
  split; [| split].
  - rewrite Hbase. reflexivity.
  - apply (Hset "x-goog-visitor-id" "v1"); [reflexivity |].
    intros key' v' Hk Hcanon.
    destruct (transport_keys key' v' Hk) as [-> | ->]; [done |].
    discriminate Hcanon.
  - apply Hother. intros key v Hk.
    destruct (transport_keys key v Hk) as [-> | ->]; discriminate.
Defined.

Lemma New_visitor_header_witness :
  Boot.New (net "nothing")
  = Boot.NewPanics "failed to get visitorId: separator not found in response"
  ∧ ∃ t, Boot.New (net page) = Boot.NewReturns t
         ∧ Boot.Header
             (Boot.RoundTrip (net page) t (map_to_list (Boot.headers t)) request).1
             !! "X-Goog-Visitor-Id" = Some ["Cgt2aXNpdG9y=="]
         ∧ Boot.Header
             (Boot.RoundTrip (net page) t (map_to_list (Boot.headers t)) request).1
             !! "Accept" = Some ["*/*"].
Proof.
  destruct (BootFacts.New_visitor_header (net "nothing")) as [Hpanic _].
  destruct (BootFacts.New_visitor_header (net page)) as [_ Hnew].
  split.
  - apply (Hpanic (Boot.Errorf "separator not found in response" None)).
    compute_eq.
  - destruct (Hnew "Cgt2aXNpdG9y==") as (t & Ht & Hsend); [compute_eq |].
    exists t. split; [exact Ht |].
    destruct (Hsend (map_to_list (Boot.headers t)) request (reflexivity _))
      as (_ & Hid & Hrest).
    split; [exact Hid |]. rewrite (Hrest "Accept"); [reflexivity | discriminate].
Defined.

End MoreWitness.
